(** * Seat-map tool: text-to-coordinate resolution pipeline

    A shallow embedding of [app.py]: the seat-text parser
    ([parse_seat_text]), the class-name normaliser ([normalize_class]),
    the coordinate index built from the three layer sheets, the
    reconciliation loop and the control flow of one run.

    Python strings are sequences of Unicode code points, so a string is a
    list of code points here.  The patterns the program hands to [re] are
    written as terms of a small pattern language and executed by a
    backtracking matcher with the priorities of [re] (greedy repetition,
    leftmost alternative first). *)

From Stdlib Require Import ZArith NArith QArith.QArith_base String Ascii List Lia
  DecimalString.
From stdpp Require Import base tactics option list gmap strings sorting.

Set Default Proof Using "Type".
Local Open Scope N_scope.

(* ===================================================================== *)
(** * Part I: definitions                                                 *)
(* ===================================================================== *)

(** ** Code points and the character tables of the interpreter *)

Module Unicode.

Definition char := N.
Definition str := list char.

(** UTF-8 decoding, used only to write string literals of the source
    (which contain Japanese text) in readable form. *)
Fixpoint utf8_decode (bs : list N) : str :=
  match bs with
  | [] => []
  | b0 :: t0 =>
      if b0 <? 0x80 then b0 :: utf8_decode t0
      else if b0 <? 0xE0 then
        match t0 with
        | b1 :: t1 =>
            N.lor (N.shiftl (N.land b0 0x1F) 6) (N.land b1 0x3F)
            :: utf8_decode t1
        | _ => []
        end
      else if b0 <? 0xF0 then
        match t0 with
        | b1 :: b2 :: t2 =>
            N.lor (N.shiftl (N.land b0 0x0F) 12)
              (N.lor (N.shiftl (N.land b1 0x3F) 6) (N.land b2 0x3F))
            :: utf8_decode t2
        | _ => []
        end
      else
        match t0 with
        | b1 :: b2 :: b3 :: t3 =>
            N.lor (N.shiftl (N.land b0 0x07) 18)
              (N.lor (N.shiftl (N.land b1 0x3F) 12)
                 (N.lor (N.shiftl (N.land b2 0x3F) 6) (N.land b3 0x3F)))
            :: utf8_decode t3
        | _ => []
        end
  end.

Definition U (s : string) : str :=
  utf8_decode (map N_of_ascii (list_ascii_of_string s)).

Definition in_range (c : char) (r : N * N) : bool :=
  (fst r <=? c) && (c <=? snd r).

(** [str.isspace] for one character; [\s] of [re] on a [str] pattern is
    the same set. *)
Definition whitespace_ranges : list (N * N) :=
  [ (0x09, 0x0D); (0x1C, 0x20); (0x85, 0x85); (0xA0, 0xA0);
    (0x1680, 0x1680); (0x2000, 0x200A); (0x2028, 0x2029);
    (0x202F, 0x202F); (0x205F, 0x205F); (0x3000, 0x3000) ].

Definition is_space (c : char) : bool :=
  existsb (in_range c) whitespace_ranges.

(** The decimal digits (general category Nd): each entry is the code
    point of a digit zero, followed by the digits one to nine. *)
Definition decimal_zeros : list N :=
  [ 0x30; 0x660; 0x6F0; 0x7C0; 0x966; 0x9E6; 0xA66; 0xAE6; 0xB66; 0xBE6;
    0xC66; 0xCE6; 0xD66; 0xDE6; 0xE50; 0xED0; 0xF20; 0x1040; 0x1090;
    0x17E0; 0x1810; 0x1946; 0x19D0; 0x1A80; 0x1A90; 0x1B50; 0x1BB0;
    0x1C40; 0x1C50; 0xA620; 0xA8D0; 0xA900; 0xA9D0; 0xA9F0; 0xAA50;
    0xABF0; 0xFF10; 0x104A0; 0x10D30; 0x11066; 0x110F0; 0x11136;
    0x111D0; 0x112F0; 0x11450; 0x114D0; 0x11650; 0x116C0; 0x11730;
    0x118E0; 0x11950; 0x11C50; 0x11D50; 0x11DA0; 0x16A60; 0x16AC0;
    0x16B50; 0x1D7CE; 0x1D7D8; 0x1D7E2; 0x1D7EC; 0x1D7F6; 0x1E140;
    0x1E2F0; 0x1E950; 0x1FBF0 ].

(** Value of a decimal digit, [None] for any other character. *)
Fixpoint decimal_in (zs : list N) (c : char) : option N :=
  match zs with
  | [] => None
  | z :: zs' =>
      if in_range c (z, z + 9) then Some (c - z) else decimal_in zs' c
  end.

Definition decimal_value (c : char) : option N := decimal_in decimal_zeros c.

(** [str.isdecimal] for one character; [\d] of [re] is the same set. *)
Definition is_decimal (c : char) : bool :=
  match decimal_value c with Some _ => true | None => false end.

(** Characters that are digits without being decimal digits
    (superscripts, circled digits and the like). *)
Definition other_digit_ranges : list (N * N) :=
  [ (0xB2, 0xB3); (0xB9, 0xB9); (0x1369, 0x1371); (0x19DA, 0x19DA);
    (0x2070, 0x2070); (0x2074, 0x2079); (0x2080, 0x2089);
    (0x2460, 0x2468); (0x2474, 0x247C); (0x2488, 0x2490);
    (0x24EA, 0x24EA); (0x24F5, 0x24FD); (0x24FF, 0x24FF);
    (0x2776, 0x277E); (0x2780, 0x2788); (0x278A, 0x2792);
    (0x10A40, 0x10A43); (0x10E60, 0x10E68); (0x11052, 0x1105A);
    (0x1F100, 0x1F10A) ].

(** [str.isdigit] for one character. *)
Definition is_digit (c : char) : bool :=
  is_decimal c || existsb (in_range c) other_digit_ranges.

Definition mem (c : char) (w : str) : bool := existsb (N.eqb c) w.

(** The complement of a set of characters. *)
Definition non (p : char -> bool) (c : char) : bool := negb (p c).

(** The longest prefix of [s] made of characters in [p], and what
    follows it. *)
Fixpoint lead (p : char -> bool) (s : str) : str :=
  match s with
  | c :: s' => if p c then c :: lead p s' else []
  | [] => []
  end.

Fixpoint skip (p : char -> bool) (s : str) : str :=
  match s with
  | c :: s' => if p c then skip p s' else s
  | [] => []
  end.

End Unicode.
Export Unicode.

(** ** The pattern language and the matcher of [re] *)

Module Re.

(** The constructs the program's patterns use.  Every repeated item in
    them is a one-character set, so repetition is over sets. *)
Inductive regex : Type :=
| Empty                                (* the empty pattern *)
| Lit (c : char)                       (* a literal character *)
| In (p : char -> bool)                (* [ ... ], \s, \S, \d *)
| Cat (r1 r2 : regex)                  (* r1 r2 *)
| Maybe (r : regex)                    (* (?: r )?   greedy *)
| Star (p : char -> bool)              (* [ ... ]*   greedy *)
| Plus (p : char -> bool)              (* [ ... ]+   greedy *)
| Group (i : nat) (r : regex)          (* ( r ), group number i *)
| Ahead (r : regex).                   (* (?= r ) *)

(** Groups closed so far, the latest first. *)
Definition caps := list (nat * str).

(** What is left of the subject after the match, and the groups. *)
Definition result : Type := str * caps.
Definition cont := str -> caps -> option result.

Definition orelse {A} (x y : option A) : option A :=
  match x with Some _ => x | None => y end.

(** Greedy repetition of a set: take as many characters as possible,
    then give them back one at a time until the rest matches. *)
Fixpoint star (p : char -> bool) (s : str) (k : str -> option result)
  : option result :=
  match s with
  | c :: s' => if p c then orelse (star p s' k) (k s) else k s
  | [] => k s
  end.

Definition plus (p : char -> bool) (s : str) (k : str -> option result)
  : option result :=
  match s with
  | c :: s' => if p c then star p s' k else None
  | [] => None
  end.

(** The matcher, in continuation-passing style: [k] is the rest of the
    pattern; a failure of [k] makes the matcher try its next choice. *)
Fixpoint mk (r : regex) (s : str) (g : caps) (k : cont) : option result :=
  match r with
  | Empty => k s g
  | Lit c =>
      match s with
      | c' :: s' => if c =? c' then k s' g else None
      | [] => None
      end
  | In p =>
      match s with
      | c' :: s' => if p c' then k s' g else None
      | [] => None
      end
  | Cat r1 r2 => mk r1 s g (fun s' g' => mk r2 s' g' k)
  | Maybe r1 => orelse (mk r1 s g k) (k s g)
  | Star p => star p s (fun s' => k s' g)
  | Plus p => plus p s (fun s' => k s' g)
  | Group i r1 =>
      mk r1 s g
        (fun s' g' => k s' ((i, take (length s - length s') s) :: g'))
  | Ahead r1 =>
      match mk r1 s g (fun s' g' => Some (s', g')) with
      | Some (_, g') => k s g'
      | None => None
      end
  end.

(** A match object: the matched text, what follows it, and the groups. *)
Record match_obj : Type := MatchObj {
  m_text : str;
  m_rest : str;
  m_groups : caps
}.

(** A match attempt at the start of [s].  With [must_advance] an empty
    match is refused (and the matcher backtracks). *)
Definition match_at (r : regex) (must_advance : bool) (s : str)
  : option match_obj :=
  match mk r s []
          (fun s' g =>
             if must_advance && (length s' =? length s)%nat then None
             else Some (s', g)) with
  | Some (s', g) => Some (MatchObj (take (length s - length s') s) s' g)
  | None => None
  end.

(** [re.match(r, s)]. *)
Definition rmatch (r : regex) (s : str) : option match_obj :=
  match_at r false s.

(** [m.group(i)]; [None] when group [i] took no part in the match. *)
Fixpoint group_in (g : caps) (i : nat) : option str :=
  match g with
  | [] => None
  | (j, w) :: g' => if (i =? j)%nat then Some w else group_in g' i
  end.

Definition group (m : match_obj) (i : nat) : option str :=
  group_in (m_groups m) i.

(** The search of the scanner: try the start position, then each later
    position in turn.  Returns the text skipped before the match and
    the match.  [must_advance] only concerns the start position. *)
Fixpoint search (r : regex) (must_advance : bool) (s : str)
  : option (str * match_obj) :=
  match match_at r must_advance s with
  | Some m => Some ([], m)
  | None =>
      match s with
      | [] => None
      | c :: s' =>
          match search r false s' with
          | Some (skipped, m) => Some (c :: skipped, m)
          | None => None
          end
      end
  end.

(** The loop shared by [re.split] and [re.sub]: the successive matches
    from left to right, each with the text between it and the previous
    one, and the text after the last match.  After an empty match the
    next match must advance.  [n] bounds the number of iterations. *)
Fixpoint scan (n : nat) (r : regex) (must_advance : bool) (s : str)
  : list (str * match_obj) * str :=
  match n with
  | O => ([], s)
  | S n' =>
      match search r must_advance s with
      | None => ([], s)
      | Some (skipped, m) =>
          let '(ms, tl) :=
            scan n' r (bool_decide (m_text m = [])) (m_rest m) in
          ((skipped, m) :: ms, tl)
      end
  end.

(** Two iterations are enough to get past one character. *)
Definition scan_bound (s : str) : nat := (2 * length s + 3)%nat.

(** [re.split(r, s)] for a pattern without groups. *)
Definition split (r : regex) (s : str) : list str :=
  let '(ms, tl) := scan (scan_bound s) r false s in
  map fst ms ++ [tl].

(** [re.sub(r, repl, s)] for a replacement without group references. *)
Definition sub (r : regex) (repl : str) (s : str) : str :=
  let '(ms, tl) := scan (scan_bound s) r false s in
  concat (map (fun sm => fst sm ++ repl) ms) ++ tl.

(** A literal word. *)
Definition Word (w : str) : regex := foldr (fun c r => Cat (Lit c) r) Empty w.

End Re.
Export Re.

(** ** Built-ins of the interpreter used by the program *)

Module Py.

(** Exceptions the modelled code can raise. *)
Inductive exn : Type := ValueError | TypeError | AttributeError | KeyError.

Inductive res (A : Type) : Type :=
| Ok (a : A)
| Raise (e : exn).
Arguments Ok {A} a.
Arguments Raise {A} e.

#[global] Instance res_ret : MRet res := fun A a => Ok a.
#[global] Instance res_bind : MBind res := fun A B f m =>
  match m with Ok a => f a | Raise e => Raise e end.

(** [for x in xs: body], the loop state threaded through; an exception
    ends the loop. *)
Fixpoint for_each {A S : Type} (xs : list A) (body : A -> S -> res S) (s : S)
  : res S :=
  match xs with
  | [] => Ok s
  | x :: xs' => s' ← body x s; for_each xs' body s'
  end.

(** [x.attr] on an optional object: [None] has no attributes. *)
Definition attr {A} (o : option A) : res A :=
  match o with Some a => Ok a | None => Raise AttributeError end.

(** [s.replace(old, new)] for one-character [old] and [new]. *)
Definition replace (old new : char) (s : str) : str :=
  map (fun c => if c =? old then new else c) s.

Definition lstrip (s : str) : str := skip is_space s.

Definition rstrip (s : str) : str := rev (lstrip (rev s)).

(** [s.strip()]. *)
Definition strip (s : str) : str := rstrip (lstrip s).

(** [s.isdigit()]. *)
Definition isdigit (s : str) : bool :=
  match s with [] => false | _ => forallb is_digit s end.

(** [int(s)] on a string.  Integers are unbounded; the limit an
    interpreter may be configured to put on the number of digits it
    converts is a setting of the installation and is left out.
    The interpreter first rewrites the text to
    ASCII: characters below 127 stay, other white space becomes a blank,
    other decimal digits become ASCII digits, anything else is invalid
    (['?']).  Then it reads optional blanks, an optional sign, digits in
    which single underscores may separate digits, and optional blanks. *)
Definition to_ascii (c : char) : N :=
  if c <? 127 then c
  else if is_space c then 0x20
  else match decimal_value c with Some d => 0x30 + d | None => 0x3F end.

Definition ascii_space (c : N) : bool := in_range c (0x09, 0x0D) || (c =? 0x20).
Definition ascii_digit (c : N) : bool := in_range c (0x30, 0x39).

Fixpoint skip_blanks (a : list N) : list N :=
  match a with
  | c :: a' => if ascii_space c then skip_blanks a' else a
  | [] => []
  end.

(** The digits, with the value read so far; [prev_us] tells that the
    previous character was an underscore. *)
Fixpoint int_digits (acc : Z) (prev_us : bool) (a : list N)
  : option (Z * list N) :=
  match a with
  | c :: a' =>
      if ascii_digit c then int_digits (10 * acc + Z.of_N (c - 0x30)) false a'
      else if c =? 0x5F then
        if prev_us then None else int_digits acc true a'
      else if prev_us then None else Some (acc, a)
  | [] => if prev_us then None else Some (acc, [])
  end.

Definition int_sign (a : list N) : Z * list N :=
  match a with
  | c :: a' =>
      if c =? 0x2B then (1%Z, a')
      else if c =? 0x2D then ((-1)%Z, a')
      else (1%Z, a)
  | [] => (1%Z, a)
  end.

Definition int_str (s : str) : res Z :=
  let '(sign, a) := int_sign (skip_blanks (map to_ascii s)) in
  match a with
  | c :: _ =>
      if ascii_digit c then
        match int_digits 0 false a with
        | Some (v, tl) =>
            match skip_blanks tl with
            | [] => Ok (sign * v)%Z
            | _ => Raise ValueError
            end
        | None => Raise ValueError
        end
      else Raise ValueError
  | [] => Raise ValueError
  end.

(** [str(z)] for an integer. *)
Definition str_int (z : Z) : str :=
  map N_of_ascii
    (list_ascii_of_string (DecimalString.NilZero.string_of_int (Z.to_int z))).

(** [list(set(l))]: the distinct elements of [l].  The interpreter fixes
    no order for them; here one occurrence of each is kept, in the order
    of [l], and the properties below are stated so that they do not
    depend on this choice. *)
Definition list_set `{EqDecision A} (l : list A) : list A := remove_dups l.

End Py.
Export Py.

(** ** The program *)

Module App.

(** *** 1. The parser *)

(** A seat request [(class_name, row_num, seat_num)]. *)
Definition request : Type := str * Z * Z.

(** [\S] *)
Definition nonspace : char -> bool := non is_space.

(** [[\d\s、,．.・]]: what a seat list is made of. *)
Definition seat_char (c : char) : bool :=
  is_decimal c || is_space c || mem c (U "、,．.・").

(** [[、,．.\s・]]: what separates seat numbers. *)
Definition sep_char (c : char) : bool :=
  mem c (U "、,．.") || is_space c || mem c (U "・").

(** [(?=Class\s)] *)
Definition BLOCK_START : regex := Ahead (Cat (Word (U "Class")) (In is_space)).

(** [Class\s+\S+(?:\s+\S+)?] *)
Definition CLASS_OPT : regex :=
  Cat (Word (U "Class"))
    (Cat (Plus is_space)
       (Cat (Plus nonspace) (Maybe (Cat (Plus is_space) (Plus nonspace))))).

(** [Class\s+\S+\s+\S+] *)
Definition CLASS_3 : regex :=
  Cat (Word (U "Class"))
    (Cat (Plus is_space)
       (Cat (Plus nonspace) (Cat (Plus is_space) (Plus nonspace)))).

(** [\s+(\d+)列\s*([\d\s、,．.・]+)] *)
Definition ROW_SEATS : regex :=
  Cat (Plus is_space)
    (Cat (Group 2 (Plus is_decimal))
       (Cat (Word (U "列"))
          (Cat (Star is_space) (Group 3 (Plus seat_char))))).

(** The first pattern, [(Class\s+\S+(?:\s+\S+)?)\s+(\d+)列\s*([\d\s、,．.・]+)]. *)
Definition PATTERN_1 : regex := Cat (Group 1 CLASS_OPT) ROW_SEATS.

(** The second pattern, [(Class\s+\S+\s+\S+)\s+(\d+)列\s*([\d\s、,．.・]+)]. *)
Definition PATTERN_2 : regex := Cat (Group 1 CLASS_3) ROW_SEATS.

(** [[、,．.\s・]+] *)
Definition SEPARATORS : regex := Plus sep_char.

(** The two match attempts on a block (lines 41-50). *)
Definition block_match (block : str) : option match_obj :=
  match rmatch PATTERN_1 block with
  | Some m => Some m
  | None => rmatch PATTERN_2 block
  end.

(** One turn of the loop over [seat_parts] (lines 60-63). *)
Definition seat_body (class_name : str) (row_num : Z) (sp : str)
    (results : list request) : res (list request) :=
  let sp := strip sp in
  if isdigit sp then
    seat_num ← int_str sp;
    Ok (results ++ [(class_name, row_num, seat_num)])
  else Ok results.

(** What a match contributes (lines 54-63). *)
Definition block_requests (m : match_obj) (results : list request)
  : res (list request) :=
  g1 ← attr (group m 1);
  let class_name := strip g1 in
  row_num ← match group m 2 with
            | Some w => int_str w
            | None => Raise TypeError
            end;
  seat_str ← attr (group m 3);
  let seat_parts := split SEPARATORS (strip seat_str) in
  for_each seat_parts (seat_body class_name row_num) results.

(** One turn of the loop over the blocks (lines 33-63). *)
Definition block_body (match_block : str -> option match_obj) (block : str)
    (results : list request) : res (list request) :=
  let block := strip block in
  match block with
  | [] => Ok results
  | _ =>
      match match_block block with
      | None => Ok results
      | Some m => block_requests m results
      end
  end.

(** The parser, for a given way of matching a block. *)
Definition parse_with (match_block : str -> option match_obj) (text : str)
  : res (list request) :=
  let text := replace 0x3000 0x20 (replace 0x3000 0x20 text) in
  let blocks := split BLOCK_START text in
  results ← for_each blocks (block_body match_block) [];
  Ok (list_set results).

(** [parse_seat_text] (lines 15-66). *)
Definition parse_seat_text (text : str) : res (list request) :=
  parse_with block_match text.

(** *** 2. The normaliser *)

(** [normalize_class] (lines 69-71), on a string ([str] of a string is
    the string itself). *)
Definition normalize_class (s : str) : str :=
  sub (Plus is_space) (U " ") (strip s).

(** *** 3. The workbook *)

(** The value of a cell as the spreadsheet library hands it over:
    absent, text, an integer, a boolean, a float (finite, as the numbers
    a spreadsheet stores are; given as the rational it denotes), or
    another object such as a date.  For a float and for an object
    [shown] is the text [str] gives. *)
Inductive value : Type :=
| VNone
| VStr (s : str)
| VInt (z : Z)
| VBool (b : bool)
| VFloat (q : Q) (shown : str)
| VObj (shown : str).

Definition is_None (v : value) : bool :=
  match v with VNone => true | _ => false end.

(** [int(v)]: a float is truncated towards zero. *)
Definition int_value (v : value) : res Z :=
  match v with
  | VNone => Raise TypeError
  | VStr s => int_str s
  | VInt z => Ok z
  | VBool b => Ok (if b then 1 else 0)%Z
  | VFloat q _ => Ok (Z.quot (Qnum q) (Z.pos (Qden q)))
  | VObj _ => Raise TypeError
  end.

(** [str(v)]. *)
Definition str_value (v : value) : str :=
  match v with
  | VNone => U "None"
  | VStr s => s
  | VInt z => str_int z
  | VBool b => if b then U "True" else U "False"
  | VFloat _ shown => shown
  | VObj shown => shown
  end.

Record PatternFill : Type := MkFill {
  fill_type : option str;
  fgColor : str
}.

(** [PatternFill("solid", fgColor="0000FF")] (line 130). *)
Definition BLUE_FILL : PatternFill := MkFill (Some (U "solid")) (U "0000FF").

(** The fill of a cell that was given none. *)
Definition NO_FILL : PatternFill := MkFill None (U "00000000").

Record cell : Type := Cell {
  cell_value : value;
  cell_fill : PatternFill
}.

(** A position [(row, column)], both counted from 1. *)
Abbreviation coord := (nat * nat)%type.

(** A sheet: its stored cells and the used range it reports. *)
Record worksheet : Type := Worksheet {
  ws_cells : gmap coord cell;
  max_row : nat;
  max_column : nat
}.

(** [ws.cell(row=r, column=c)]; a position without a stored cell reads as
    an empty cell.  (The library also stores that empty cell; this
    changes no value and no fill, and is left out.) *)
Definition ws_cell (ws : worksheet) (r c : nat) : cell :=
  default (Cell VNone NO_FILL) (ws_cells ws !! (r, c)).

(** [ws.cell(row=r, column=c).fill = f]. *)
Definition set_fill (ws : worksheet) (r c : nat) (f : PatternFill)
  : worksheet :=
  Worksheet (<[(r, c) := Cell (cell_value (ws_cell ws r c)) f]> (ws_cells ws))
    (max_row ws) (max_column ws).

(** A workbook: its sheets with their names, in order. *)
Definition workbook : Type := list (str * worksheet).

Definition sheetnames (wb : workbook) : list str := wb.*1.

(** [wb[name]]. *)
Fixpoint getitem (wb : workbook) (name : str) : res worksheet :=
  match wb with
  | [] => Raise KeyError
  | (n, ws) :: wb' => if bool_decide (n = name) then Ok ws else getitem wb' name
  end.

(** [wb[name]] after the sheet object was changed in place. *)
Fixpoint setitem (wb : workbook) (name : str) (ws' : worksheet) : workbook :=
  match wb with
  | [] => []
  | (n, ws) :: wb' =>
      if bool_decide (n = name) then (n, ws') :: wb'
      else (n, ws) :: setitem wb' name ws'
  end.

Definition SHEET_SEAT : str := U "25－26ブロックマップ_座席番号".
Definition SHEET_ROW : str := U "25－26ブロックマップ_列".
Definition SHEET_CLASS : str := U "25－26ブロックマップ_クラス".

(** Line 120. *)
Definition required_sheets : list str := [SHEET_SEAT; SHEET_ROW; SHEET_CLASS].

(** Line 121. *)
Definition missing_sheets (wb : workbook) : list str :=
  filter (fun s => s ∉ sheetnames wb) required_sheets.

(** *** 4. The coordinate index *)

Abbreviation key := (str * Z * Z)%type.

(** [except (ValueError, TypeError)]. *)
Definition caught (e : exn) : bool :=
  match e with ValueError | TypeError => true | _ => false end.

(** The body of the two loops for one position (lines 140-157). *)
Definition index_body (ws_class ws_row ws_seat : worksheet) (r c : nat)
    (coord_map : gmap key coord) : res (gmap key coord) :=
  let cv := cell_value (ws_cell ws_class r c) in
  let rv := cell_value (ws_cell ws_row r c) in
  let sv := cell_value (ws_cell ws_seat r c) in
  if is_None cv || is_None rv || is_None sv then Ok coord_map
  else
    let cv_norm := normalize_class (str_value cv) in
    match int_value rv with
    | Raise e => if caught e then Ok coord_map else Raise e
    | Ok rv_int =>
        match int_value sv with
        | Raise e => if caught e then Ok coord_map else Raise e
        | Ok sv_int => Ok (<[(cv_norm, rv_int, sv_int) := (r, c)]> coord_map)
        end
    end.

(** [range(1, n + 1)]. *)
Definition range1 (n : nat) : list nat := seq 1 n.

(** The index (lines 134-157). *)
Definition build_index (ws_class ws_row ws_seat : worksheet)
  : res (gmap key coord) :=
  for_each (range1 (max_row ws_class))
    (fun r coord_map =>
       for_each (range1 (max_column ws_class))
         (fun c coord_map => index_body ws_class ws_row ws_seat r c coord_map)
         coord_map)
    ∅.

(** *** 5. Reconciliation *)

(** A row of the table of matched seats; [hit_cell] is the position
    shown as [R{r}C{c}]. *)
Record hit : Type := Hit {
  hit_class : str;
  hit_row : Z;
  hit_seat : Z;
  hit_cell : coord
}.

Definition hit_request (h : hit) : request :=
  (hit_class h, hit_row h, hit_seat h).

(** What the loop changes: the seat sheet and the two lists. *)
Record recon : Type := Recon {
  seat_sheet : worksheet;
  matched : list hit;
  unmatched : list request
}.

Definition request_key (rq : request) : key :=
  let '(class_name, row_num, seat_num) := rq in
  (normalize_class class_name, row_num, seat_num).

(** One turn of the loop (lines 163-179). *)
Definition reconcile_body (coord_map : gmap key coord) (st : recon)
    (rq : request) : recon :=
  let '(class_name, row_num, seat_num) := rq in
  match coord_map !! request_key rq with
  | Some (r, c) =>
      Recon (set_fill (seat_sheet st) r c BLUE_FILL)
        (matched st ++ [Hit class_name row_num seat_num (r, c)])
        (unmatched st)
  | None =>
      Recon (seat_sheet st) (matched st)
        (unmatched st ++ [(class_name, row_num, seat_num)])
  end.

(** The loop (lines 160-179). *)
Definition reconcile (coord_map : gmap key coord) (seats : list request)
    (ws_seat : worksheet) : recon :=
  foldl (reconcile_body coord_map) (Recon ws_seat [] []) seats.

(** *** 6. One run of the script *)

(** What the run shows or does, in order. *)
Inductive event : Type :=
| Error_unparsed                        (* st.error, line 112 *)
| Write_count (n : nat)                 (* st.write, line 115 *)
| Load_workbook                         (* openpyxl.load_workbook, line 118 *)
| Error_missing (missing : list str)    (* st.error, line 123 *)
| Success_done (painted missed : nat)   (* st.success, line 225 *)
| Table_matched (rows : list hit)       (* st.dataframe, line 232 *)
| Info_none_matched                     (* st.info, line 234 *)
| Table_unmatched (rows : list request) (* st.dataframe, line 239 *)
| Success_all_matched                   (* st.success, line 242 *)
| Download (sheet_name : str) (sheet : worksheet). (* lines 186-250 *)

(** The state of a run: what was shown so far, and the workbook object
    once it is loaded. *)
Record world : Type := World {
  log : list event;
  book : option workbook
}.

Inductive flow (A : Type) : Type :=
| Go (a : A)          (* the script goes on *)
| Halt                (* st.stop() *)
| Crash (e : exn).    (* an exception nobody caught *)
Arguments Go {A} a.
Arguments Halt {A}.
Arguments Crash {A} e.

Definition script (A : Type) : Type := world -> flow A * world.

#[global] Instance script_ret : MRet script := fun A a w => (Go a, w).
#[global] Instance script_bind : MBind script := fun A B f m w =>
  match m w with
  | (Go a, w') => f a w'
  | (Halt, w') => (Halt, w')
  | (Crash e, w') => (Crash e, w')
  end.

Definition emit (e : event) : script unit :=
  fun w => (Go tt, World (log w ++ [e]) (book w)).

Definition st_stop {A} : script A := fun w => (Halt, w).

Definition lift {A} (x : res A) : script A :=
  fun w => match x with Ok a => (Go a, w) | Raise e => (Crash e, w) end.

Definition load_workbook (uploaded : workbook) : script workbook :=
  fun w => (Go uploaded, World (log w ++ [Load_workbook]) (Some uploaded)).

(** The seat sheet of the loaded workbook after the fills. *)
Definition store_seat_sheet (ws : worksheet) : script unit :=
  fun w => (Go tt, World (log w) (fmap (fun wb => setitem wb SHEET_SEAT ws) (book w))).

(** The body of [if run:] (lines 107-250), for the pasted text, the
    workbook in the uploaded file and the date code. *)
Definition run (seat_text : str) (uploaded : workbook) (date_str : str)
  : script unit :=
  seats ← lift (parse_seat_text seat_text);
  (match seats with
   | [] => emit Error_unparsed ;; st_stop
   | _ => mret tt
   end) ;;
  emit (Write_count (length seats)) ;;
  wb ← load_workbook uploaded;
  let missing := missing_sheets wb in
  (match missing with
   | [] => mret tt
   | _ => emit (Error_missing missing) ;; st_stop
   end) ;;
  ws_seat ← lift (getitem wb SHEET_SEAT);
  ws_row ← lift (getitem wb SHEET_ROW);
  ws_class ← lift (getitem wb SHEET_CLASS);
  coord_map ← lift (build_index ws_class ws_row ws_seat);
  let rc := reconcile coord_map seats ws_seat in
  store_seat_sheet (seat_sheet rc) ;;
  emit (Success_done (length (matched rc)) (length (unmatched rc))) ;;
  (match matched rc with
   | [] => emit Info_none_matched
   | _ => emit (Table_matched (matched rc))
   end) ;;
  (match unmatched rc with
   | [] => emit Success_all_matched
   | _ => emit (Table_unmatched (unmatched rc))
   end) ;;
  emit (Download date_str (seat_sheet rc)).

(** A run from the start: nothing shown, no workbook loaded. *)
Definition start : world := World [] None.

End App.
Export App.

(** ** Definitions used to state the properties *)

Module Spec.

(** What it means for a pattern to match a prefix of a subject: from
    [s] with groups [g], the pattern can leave [s'] with groups [g']. *)
Inductive sem : regex -> str -> caps -> str -> caps -> Prop :=
| sem_Empty s g : sem Empty s g s g
| sem_Lit c s g : sem (Lit c) (c :: s) g s g
| sem_In (p : char -> bool) c s g : p c = true -> sem (In p) (c :: s) g s g
| sem_Cat r1 r2 s g s1 g1 s2 g2 :
    sem r1 s g s1 g1 -> sem r2 s1 g1 s2 g2 -> sem (Cat r1 r2) s g s2 g2
| sem_Maybe_some r s g s' g' : sem r s g s' g' -> sem (Maybe r) s g s' g'
| sem_Maybe_none r s g : sem (Maybe r) s g s g
| sem_Star (p : char -> bool) w s g :
    Forall (fun c => p c = true) w -> sem (Star p) (w ++ s) g s g
| sem_Plus (p : char -> bool) w s g :
    w <> [] -> Forall (fun c => p c = true) w -> sem (Plus p) (w ++ s) g s g
| sem_Group i r s g s' g' :
    sem r s g s' g' ->
    sem (Group i r) s g s' ((i, take (length s - length s') s) :: g')
| sem_Ahead r s g s' g' : sem r s g s' g' -> sem (Ahead r) s g s g'.

(** A pattern without groups. *)
Fixpoint groupless (r : regex) : bool :=
  match r with
  | Cat r1 r2 => groupless r1 && groupless r2
  | Maybe r1 | Ahead r1 => groupless r1
  | Group _ _ => false
  | _ => true
  end.

(** Every run of characters of [p] replaced by [repl]; [in_run] tells
    that the previous character was in [p]. *)
Fixpoint squeeze (p : char -> bool) (repl : str) (in_run : bool) (s : str)
  : str :=
  match s with
  | [] => []
  | c :: s' =>
      if p c then
        if in_run then squeeze p repl true s'
        else repl ++ squeeze p repl true s'
      else c :: squeeze p repl false s'
  end.

(** The words of a string: its maximal runs of characters that are not
    white space. *)
Fixpoint words (s : str) : list str :=
  match s with
  | [] => []
  | c :: s' =>
      if is_space c then words s'
      else
        match s' with
        | [] => [[c]]
        | c' :: _ =>
            if is_space c' then [c] :: words s'
            else
              match words s' with
              | w :: ws => (c :: w) :: ws
              | [] => [[c]]
              end
        end
  end.

(** Words joined by single blanks. *)
Fixpoint join (ws : list str) : str :=
  match ws with
  | [] => []
  | [w] => w
  | w :: ws' => w ++ 0x20 :: join ws'
  end.

(** A word: not empty, no white space in it. *)
Definition wordlike (w : str) : Prop :=
  w <> [] /\ Forall (fun c => is_space c = false) w.

(** The two-token form of the class name, [Class\s+\S+], and the
    pattern built on it. *)
Definition CLASS_2 : regex :=
  Cat (Word (U "Class")) (Cat (Plus is_space) (Plus nonspace)).

Definition TWO_TOKEN : regex := Cat (Group 1 CLASS_2) ROW_SEATS.

(** The positions of the used range of a sheet, row by row from the
    top, each row from the left. *)
Definition row_positions (ws : worksheet) (r : nat) : list coord :=
  map (fun c => (r, c)) (range1 (max_column ws)).

Definition positions (ws : worksheet) : list coord :=
  flat_map (row_positions ws) (range1 (max_row ws)).


(** The key a position stands for: none when one of the three values is
    absent or the row or seat value is not convertible to an integer. *)
Definition key_at (ws_class ws_row ws_seat : worksheet) (p : coord)
  : option key :=
  let cv := cell_value (ws_cell ws_class p.1 p.2) in
  let rv := cell_value (ws_cell ws_row p.1 p.2) in
  let sv := cell_value (ws_cell ws_seat p.1 p.2) in
  if is_None cv || is_None rv || is_None sv then None
  else
    match int_value rv, int_value sv with
    | Ok rv_int, Ok sv_int => Some (normalize_class (str_value cv), rv_int, sv_int)
    | _, _ => None
    end.

(** Scanning a list of positions in order, each position that stands
    for a key entered under that key. *)
Definition enter (ws_class ws_row ws_seat : worksheet) (m : gmap key coord)
    (p : coord) : gmap key coord :=
  match key_at ws_class ws_row ws_seat p with
  | Some k => <[k := p]> m
  | None => m
  end.

Definition index_of (ws_class ws_row ws_seat : worksheet) (ps : list coord)
  : gmap key coord :=
  foldl (enter ws_class ws_row ws_seat) ∅ ps.

(** The requests whose key is in the index, and those whose key is
    not, each in the order of the list. *)
Definition hits (coord_map : gmap key coord) (seats : list request)
  : list request :=
  filter (fun rq => is_Some (coord_map !! request_key rq)) seats.

Definition misses (coord_map : gmap key coord) (seats : list request)
  : list request :=
  filter (fun rq => coord_map !! request_key rq = None) seats.

End Spec.
Export Spec.

(** ** Sample data for the concrete instances *)

Module Samples.

(** A sheet without cells. *)
Definition blank_sheet : worksheet := Worksheet ∅ 1 1.

(** A workbook that has none of the three layer sheets. *)
Definition other_book : workbook := [(U "Sheet1", blank_sheet)].

Definition south_1_33 : request := (U "Class S South", 1%Z, 33%Z).
Definition south_1_5 : request := (U "Class S South", 1%Z, 5%Z).

(** An index with the single entry for [south_1_33], at row 2, column 3. *)
Definition one_seat_index : gmap key coord :=
  {[ (U "Class S South", 1%Z, 33%Z) := (2%nat, 3%nat) ]}.

End Samples.
Export Samples.

(** ** Definitions used to state further properties *)

Module More.

(** [s] starts an entry: the word [Class] and a white space character. *)
Definition starts_entry (s : str) : bool :=
  bool_decide (take 5 s = U "Class") &&
  match drop 5 s with
  | c :: _ => is_space c
  | [] => false
  end.

(** No entry starts anywhere in [s]. *)
Fixpoint entry_free (s : str) : bool :=
  match s with
  | [] => true
  | _ :: s' => negb (starts_entry s) && entry_free s'
  end.

(** No entry starts in [k ++ rest] at a position inside [k]. *)
Fixpoint entry_free_in (k rest : str) : bool :=
  match k with
  | [] => true
  | _ :: k' => negb (starts_entry (k ++ rest)) && entry_free_in k' rest
  end.

(** A non-empty run of white space. *)
Definition blanks (sp : str) : Prop :=
  sp <> [] /\ Forall (fun c => is_space c = true) sp.

(** A non-empty string of decimal digits, and the number it writes. *)
Definition numeral (d : str) : Prop :=
  d <> [] /\ Forall (fun c => is_decimal c = true) d.

Definition decimal_number (d : str) : Z :=
  foldl (fun acc c => (10 * acc + Z.of_N (default 0%N (decimal_value c)))%Z) 0%Z d.

(** The form of a class name: the word [Class], white space, a word,
    and possibly white space and one more word. *)
Definition class_form (w : str) : Prop :=
  exists sp1 t1,
    blanks sp1 /\ wordlike t1 /\
    (w = U "Class" ++ sp1 ++ t1 \/
     exists sp2 t2, blanks sp2 /\ wordlike t2 /\ w = U "Class" ++ sp1 ++ t1 ++ sp2 ++ t2).

(** The character [列] that follows a row number. *)
Definition ROW_MARK : char := 0x5217.

(** Three small layer sheets with two seats in row 1, and the workbook
    that holds them. *)
Definition class_layer : worksheet :=
  Worksheet {[ (1%nat, 1%nat) := Cell (VStr (U "Class  S South")) NO_FILL;
               (1%nat, 2%nat) := Cell (VStr (U "Class S South")) NO_FILL ]} 1 2.

Definition row_layer : worksheet :=
  Worksheet {[ (1%nat, 1%nat) := Cell (VInt 1) NO_FILL;
               (1%nat, 2%nat) := Cell (VStr (U " 1 ")) NO_FILL ]} 1 2.

Definition seat_layer : worksheet :=
  Worksheet {[ (1%nat, 1%nat) := Cell (VInt 33) NO_FILL;
               (1%nat, 2%nat) := Cell (VInt 34) NO_FILL ]} 1 2.

Definition layer_book : workbook :=
  [(SHEET_SEAT, seat_layer); (SHEET_ROW, row_layer); (SHEET_CLASS, class_layer)].

Definition south_1_34 : key := (U "Class S South", 1%Z, 34%Z).

End More.
Export More.

(* ===================================================================== *)
(** * Part II: properties                                                 *)
(* ===================================================================== *)

(** ** The matcher *)

Section Repetition.

Variable p : char -> bool.

Lemma orelse_None_r {A} (x : option A) : orelse x None = x.
Proof. by destruct x. Qed.

Lemma lead_skip (s : str) : lead p s ++ skip p s = s.
Proof. induction s as [|c s IH]; simpl; [done|]. destruct (p c); simpl; congruence. Qed.

Lemma Forall_lead (s : str) : Forall (fun c => p c = true) (lead p s).
Proof.
  induction s as [|c s IH]; simpl; [constructor|].
  destruct (p c) eqn:E; by constructor.
Qed.

Lemma skip_head (s : str) c s' : skip p s = c :: s' -> p c = false.
Proof.
  induction s as [|d s IH]; simpl; [done|].
  destruct (p d) eqn:E; [done|]. by intros [= <- _].
Qed.

Lemma skip_length (s : str) : (length (skip p s) <= length s)%nat.
Proof. induction s as [|c s IH]; simpl; [lia|]. destruct (p c); simpl; lia. Qed.

Lemma skip_all (s : str) : Forall (fun c => p c = true) s -> skip p s = [].
Proof. induction 1 as [|c s Hc _ IH]; simpl; [done|]. by rewrite Hc. Qed.

Lemma skip_app_lead (w s : str) :
  Forall (fun c => p c = true) w -> skip p (w ++ s) = skip p s.
Proof. induction 1 as [|c w Hc _ IH]; simpl; [done|]. by rewrite Hc. Qed.

(** Greedy: if the rest of the pattern accepts what follows the longest
    run, that is the match. *)
Lemma star_greedy (s : str) k x : k (skip p s) = Some x -> star p s k = Some x.
Proof.
  induction s as [|c s IH]; simpl; [done|].
  destruct (p c); [|done]. intros H. by rewrite (IH H).
Qed.

(** When the rest of the pattern cannot start with a character of [p],
    only the longest run is possible. *)
Lemma star_commit (s : str) k :
  (forall c s', p c = true -> k (c :: s') = None) ->
  star p s k = k (skip p s).
Proof.
  intros Hk. induction s as [|c s IH]; simpl; [done|].
  destruct (p c) eqn:E; [|done].
  by rewrite IH, (Hk c s E), orelse_None_r.
Qed.

Lemma plus_commit (s : str) k :
  (forall c s', p c = true -> k (c :: s') = None) ->
  plus p s k =
    match s with
    | c :: s' => if p c then k (skip p s') else None
    | [] => None
    end.
Proof.
  intros Hk. destruct s as [|c s]; simpl; [done|].
  destruct (p c); [|done]. by apply star_commit.
Qed.

Lemma plus_reject (s : str) k c :
  p c = false -> plus p (c :: s) k = None.
Proof. intros E. simpl. by rewrite E. Qed.

Lemma star_sound (s : str) k x :
  star p s k = Some x ->
  exists w rest, s = w ++ rest /\ Forall (fun c => p c = true) w /\ k rest = Some x.
Proof.
  revert x. induction s as [|c s IH]; simpl; intros x H.
  - by exists [], [].
  - destruct (p c) eqn:E.
    + destruct (star p s k) as [y|] eqn:Es; simpl in H.
      * destruct (IH y eq_refl) as (w & rest & -> & Hw & Hk).
        exists (c :: w), rest. split; [done|]. split; [by constructor|congruence].
      * by exists [], (c :: s).
    + by exists [], (c :: s).
Qed.

Lemma plus_sound (s : str) k x :
  plus p s k = Some x ->
  exists w rest,
    s = w ++ rest /\ w <> [] /\ Forall (fun c => p c = true) w /\ k rest = Some x.
Proof.
  destruct s as [|c s]; simpl; [done|].
  destruct (p c) eqn:E; [|done]. intros H.
  destruct (star_sound _ _ _ H) as (w & rest & -> & Hw & Hk).
  exists (c :: w), rest. repeat split; [done|by constructor|done].
Qed.

End Repetition.


(** Every success of the matcher is a match in the sense of [sem]. *)
Lemma mk_sound r : forall s g k x,
  mk r s g k = Some x ->
  exists s' g', sem r s g s' g' /\ k s' g' = Some x.
Proof.
  induction r as [|c|p|r1 IH1 r2 IH2|r IH|p|p|i r IH|r IH]; simpl; intros s g k x H.
  - exists s, g. split; [constructor|done].
  - destruct s as [|c' s]; [done|]. destruct (N.eqb_spec c c') as [->|]; [|done].
    exists s, g. split; [constructor|done].
  - destruct s as [|c' s]; [done|]. destruct (p c') eqn:E; [|done].
    exists s, g. split; [by constructor|done].
  - destruct (IH1 _ _ _ _ H) as (s1 & g1 & H1 & H').
    destruct (IH2 _ _ _ _ H') as (s2 & g2 & H2 & Hk).
    exists s2, g2. split; [by econstructor|done].
  - destruct (mk r s g k) as [y|] eqn:E; simpl in H.
    + destruct (IH _ _ _ _ E) as (s' & g' & H1 & Hk).
      exists s', g'. split; [by apply sem_Maybe_some|congruence].
    + exists s, g. split; [apply sem_Maybe_none|done].
  - destruct (star_sound _ _ _ _ H) as (w & rest & -> & Hw & Hk).
    exists rest, g. split; [by constructor|done].
  - destruct (plus_sound _ _ _ _ H) as (w & rest & -> & Hne & Hw & Hk).
    exists rest, g. split; [by constructor|done].
  - destruct (IH _ _ _ _ H) as (s' & g' & H1 & Hk).
    exists s', ((i, take (length s - length s') s) :: g'). split; [by constructor|done].
  - destruct (mk r s g _) as [[s1 g1]|] eqn:E; [|done].
    destruct (IH _ _ _ _ E) as (s' & g' & H1 & [= -> ->]).
    exists s, g1. split; [by econstructor|done].
Qed.

(** A match consumes a prefix of the subject. *)
Lemma sem_suffix r s g s' g' : sem r s g s' g' -> exists w, s = w ++ s'.
Proof.
  induction 1 as [s g|c s g|p c s g Hp|r1 r2 s g s1 g1 s2 g2 _ [w1 ->] _ [w2 ->]
                 |r s g s' g' _ IH|r s g|p w s g Hw|p w s g Hne Hw
                 |i r s g s' g' _ IH|r s g s' g' _ IH].
  - by exists [].
  - by exists [c].
  - by exists [c].
  - exists (w1 ++ w2). by rewrite <-app_assoc.
  - done.
  - by exists [].
  - by exists w.
  - by exists w.
  - done.
  - by exists [].
Qed.

Lemma sem_groupless r s g s' g' : sem r s g s' g' -> groupless r = true -> g' = g.
Proof.
  induction 1 as [| | |r1 r2 s g s1 g1 s2 g2 _ IH1 _ IH2| | | | | |];
    simpl; intros Hg; try done; try auto.
  apply andb_prop in Hg as [? ?]. rewrite IH2, IH1; done.
Qed.

Lemma take_app_rest (w s : str) : take (length (w ++ s) - length s) (w ++ s) = w.
Proof.
  rewrite length_app. replace (length w + length s - length s)%nat with (length w) by lia.
  by rewrite take_app_length.
Qed.

(** ** The two patterns of the parser *)

(** The matcher only looks at what the rest of the pattern answers. *)
Lemma star_ext (p : char -> bool) s (k1 k2 : str -> option result) :
  (forall s', k1 s' = k2 s') -> star p s k1 = star p s k2.
Proof.
  intros Hk. induction s as [|c s IH]; simpl; [done|].
  by rewrite IH, Hk.
Qed.

Lemma plus_ext (p : char -> bool) s (k1 k2 : str -> option result) :
  (forall s', k1 s' = k2 s') -> plus p s k1 = plus p s k2.
Proof.
  intros Hk. destruct s as [|c s]; simpl; [done|].
  destruct (p c); [|done]. by apply star_ext.
Qed.

Lemma mk_ext r : forall s g (k1 k2 : cont),
  (forall s' g', k1 s' g' = k2 s' g') -> mk r s g k1 = mk r s g k2.
Proof.
  induction r as [|c|p|r1 IH1 r2 IH2|r IH|p|p|i r IH|r IH]; simpl; intros s g k1 k2 Hk;
    try done.
  - destruct s; [done|]. by rewrite Hk.
  - destruct s; [done|]. by rewrite Hk.
  - apply IH1. intros s' g'. by apply IH2.
  - by rewrite (IH _ _ k1 k2), Hk.
  - by apply star_ext.
  - by apply plus_ext.
  - by apply IH.
  - destruct (mk r s g _) as [[? ?]|]; [|done]. by rewrite Hk.
Qed.

(** A literal word is matched in one way only. *)
Lemma mk_Word (w : str) s g k :
  mk (Word w) s g k = if bool_decide (take (length w) s = w) then k (drop (length w) s) g else None.
Proof.
  revert s. induction w as [|c w IH]; intros s; simpl.
  - by rewrite drop_0.
  - destruct s as [|c' s]; simpl; [done|].
    destruct (N.eqb_spec c c') as [->|Hne].
    + rewrite IH. repeat case_bool_decide; congruence.
    + rewrite bool_decide_eq_false_2; congruence.
Qed.

Lemma Word_orelse (w : str) s g k1 k2 :
  mk (Word w) s g (fun s' g' => orelse (k1 s' g') (k2 s' g')) =
  orelse (mk (Word w) s g k1) (mk (Word w) s g k2).
Proof. rewrite !mk_Word. by case_bool_decide. Qed.

Lemma plus_orelse (p : char -> bool) s (k1 k2 : str -> option result) :
  (forall c s', p c = true -> k1 (c :: s') = None) ->
  (forall c s', p c = true -> k2 (c :: s') = None) ->
  plus p s (fun s' => orelse (k1 s') (k2 s')) = orelse (plus p s k1) (plus p s k2).
Proof.
  intros H1 H2. rewrite !plus_commit; [|done..|].
  - destruct s as [|c s]; [done|]. by destruct (p c).
  - intros c s' Hc. by rewrite H1, H2.
Qed.

Lemma plus_space_nonspace s' c k : nonspace c = true -> plus is_space (c :: s') k = None.
Proof. unfold nonspace, non. intros H. apply plus_reject. by destruct (is_space c). Qed.

Lemma plus_nonspace_space s' c k : is_space c = true -> plus nonspace (c :: s') k = None.
Proof. intros H. apply plus_reject. unfold nonspace, non. by rewrite H. Qed.

(** The first pattern is the three-token form with the two-token form
    as its second choice. *)
Lemma CLASS_OPT_choice s g k :
  (forall c s' g', nonspace c = true -> k (c :: s') g' = None) ->
  mk CLASS_OPT s g k = orelse (mk CLASS_3 s g k) (mk CLASS_2 s g k).
Proof.
  intros Hk. unfold CLASS_OPT, CLASS_3, CLASS_2.
  cbn [mk]. rewrite <-Word_orelse. apply mk_ext; intros s1 g1.
  rewrite <-plus_orelse.
  - apply plus_ext; intros s2.
    rewrite <-plus_orelse; [done|..].
    + intros c s' Hc. by apply plus_space_nonspace.
    + intros c s' Hc. by apply Hk.
  - intros c s' Hc. by apply plus_nonspace_space.
  - intros c s' Hc. by apply plus_nonspace_space.
Qed.

Lemma ROW_SEATS_nonspace c s g k : nonspace c = true -> mk ROW_SEATS (c :: s) g k = None.
Proof. intros H. unfold ROW_SEATS. cbn [mk]. by apply plus_space_nonspace. Qed.

Lemma PATTERN_1_choice s g k :
  mk PATTERN_1 s g k = orelse (mk PATTERN_2 s g k) (mk TWO_TOKEN s g k).
Proof.
  unfold PATTERN_1, PATTERN_2, TWO_TOKEN. cbn [mk].
  apply CLASS_OPT_choice. intros c s' g' Hc. by apply ROW_SEATS_nonspace.
Qed.

Lemma match_at_orelse r r1 r2 adv s :
  (forall k, mk r s [] k = orelse (mk r1 s [] k) (mk r2 s [] k)) ->
  match_at r adv s =
    match match_at r1 adv s with
    | Some m => Some m
    | None => match_at r2 adv s
    end.
Proof.
  intros H. unfold match_at. rewrite H.
  by destruct (mk r1 s [] _) as [[? ?]|].
Qed.

(** The first pattern reads a block as the second pattern does whenever
    the second pattern matches, and as the two-token form otherwise. *)
Lemma rmatch_PATTERN_1 block :
  rmatch PATTERN_1 block =
    match rmatch PATTERN_2 block with
    | Some m => Some m
    | None => rmatch TWO_TOKEN block
    end.
Proof. apply match_at_orelse. intros k. apply PATTERN_1_choice. Qed.

Lemma block_match_PATTERN_1 block : block_match block = rmatch PATTERN_1 block.
Proof.
  unfold block_match. rewrite rmatch_PATTERN_1.
  by destruct (rmatch PATTERN_2 block), (rmatch TWO_TOKEN block).
Qed.

(** *** What the groups of a match hold *)

Lemma sem_Group_Plus i (p : char -> bool) s g s' g' :
  sem (Group i (Plus p)) s g s' g' ->
  exists w, g' = (i, w) :: g /\ w <> [] /\ Forall (fun c => p c = true) w /\ s = w ++ s'.
Proof.
  intros H. inversion H as [| | | | | | | |i' r' s0 g0 s0' g0' Hp|]; subst.
  inversion Hp as [| | | | | | |p' w s0 g0 Hne Hw| |]; subst.
  exists w. by rewrite take_app_rest.
Qed.

Lemma sem_ROW_SEATS s g s' g' :
  sem ROW_SEATS s g s' g' ->
  exists w2 w3,
    g' = (3%nat, w3) :: (2%nat, w2) :: g /\
    w2 <> [] /\ Forall (fun c => is_decimal c = true) w2 /\
    w3 <> [] /\ Forall (fun c => seat_char c = true) w3.
Proof.
  unfold ROW_SEATS. intros H.
  inversion H as [| | |r1 r2 s0 g0 s1 g1 s2 g2 Hsp H1| | | | | |]; subst; clear H.
  apply sem_groupless in Hsp as ->; [|done].
  inversion H1 as [| | |r1 r2 s0 g0 s2 g2 s3 g3 Hrow H2| | | | | |]; subst; clear H1.
  apply sem_Group_Plus in Hrow as (w2 & -> & Hne2 & Hw2 & ->).
  inversion H2 as [| | |r1 r2 s0 g0 s3 g3 s4 g4 Hretsu H3| | | | | |]; subst; clear H2.
  apply sem_groupless in Hretsu as ->; [|done].
  inversion H3 as [| | |r1 r2 s0 g0 s4 g4 s5 g5 Hsp2 H4| | | | | |]; subst; clear H3.
  apply sem_groupless in Hsp2 as ->; [|done].
  apply sem_Group_Plus in H4 as (w3 & -> & Hne3 & Hw3 & ->).
  by exists w2, w3.
Qed.

Lemma sem_class_pattern cls s g s' g' :
  groupless cls = true ->
  sem (Cat (Group 1 cls) ROW_SEATS) s g s' g' ->
  exists w1 w2 w3,
    g' = [(3%nat, w3); (2%nat, w2); (1%nat, w1)] ++ g /\
    w2 <> [] /\ Forall (fun c => is_decimal c = true) w2 /\
    w3 <> [] /\ Forall (fun c => seat_char c = true) w3.
Proof.
  intros Hcls H.
  inversion H as [| | |r1 r2 s0 g0 s1 g1 s2 g2 Hc Hr| | | | | |]; subst; clear H.
  inversion Hc as [| | | | | | | |i' r' s0 g0 s0' g0' Hc'|]; subst; clear Hc.
  apply sem_groupless in Hc' as ->; [|done].
  apply sem_ROW_SEATS in Hr as (w2 & w3 & -> & ?).
  by eexists _, w2, w3.
Qed.

Lemma rmatch_groups cls block m :
  groupless cls = true ->
  rmatch (Cat (Group 1 cls) ROW_SEATS) block = Some m ->
  exists w1 w2 w3,
    m_groups m = [(3%nat, w3); (2%nat, w2); (1%nat, w1)] /\
    w2 <> [] /\ Forall (fun c => is_decimal c = true) w2 /\
    w3 <> [] /\ Forall (fun c => seat_char c = true) w3.
Proof.
  intros Hcls. unfold rmatch, match_at.
  destruct (mk _ block [] _) as [[s' g']|] eqn:E; [|done].
  intros [= <-]. simpl.
  apply mk_sound in E as (s1 & g1 & Hsem & [= <- <-]).
  apply sem_class_pattern in Hsem as (w1 & w2 & w3 & -> & ?); [|done].
  by exists w1, w2, w3.
Qed.

Lemma block_match_groups block m :
  block_match block = Some m ->
  exists w1 w2 w3,
    m_groups m = [(3%nat, w3); (2%nat, w2); (1%nat, w1)] /\
    w2 <> [] /\ Forall (fun c => is_decimal c = true) w2 /\
    w3 <> [] /\ Forall (fun c => seat_char c = true) w3.
Proof.
  rewrite block_match_PATTERN_1. by apply rmatch_groups.
Qed.

(** ** The scanner on a repeated set *)

Section ScanPlus.

Variable p : char -> bool.

Local Abbreviation np := (non p).

Lemma match_at_Plus adv (s : str) :
  match_at (Plus p) adv s =
    match s with
    | c :: s' =>
        if p c then Some (MatchObj (c :: lead p s') (skip p s') []) else None
    | [] => None
    end.
Proof.
  unfold match_at. destruct s as [|c s']; cbn [mk plus]; [done|].
  destruct (p c) eqn:E; [|done].
  erewrite star_greedy.
  2:{ assert (length (skip p s') <= length s')%nat by apply skip_length.
      replace (length (skip p s') =? length (c :: s'))%nat with false; [by rewrite andb_false_r|].
      symmetry. apply Nat.eqb_neq. simpl. lia. }
  do 2 f_equal.
  rewrite <-(lead_skip p s') at 1 3.
  apply (take_app_rest (c :: lead p s')).
Qed.

Lemma search_Plus adv (s : str) :
  search (Plus p) adv s =
    match skip np s with
    | c :: s' => Some (lead np s, MatchObj (c :: lead p s') (skip p s') [])
    | [] => None
    end.
Proof.
  revert adv. induction s as [|c s IH]; intros adv.
  - done.
  - cbn [search]. rewrite match_at_Plus. simpl.
    destruct (p c) eqn:E; unfold np at 1 3; rewrite E; simpl; [done|].
    rewrite IH. by destruct (skip np s).
Qed.

Lemma skip_np_head (s : str) c s' : skip np s = c :: s' -> p c = true.
Proof. intros H. apply skip_head in H. unfold np in H. by destruct (p c). Qed.

Lemma Forall_lead_np (s : str) : Forall (fun c => p c = false) (lead np s).
Proof.
  eapply Forall_impl; [apply Forall_lead|]. unfold np. intros c. by destruct (p c).
Qed.

Lemma squeeze_lead repl (s : str) :
  squeeze p repl false s = lead np s ++ squeeze p repl false (skip np s).
Proof.
  induction s as [|c s IH]; simpl; [done|].
  destruct (p c) eqn:E; unfold np at 1 3; rewrite E; simpl; [by rewrite E|].
  by rewrite IH.
Qed.

Lemma squeeze_true repl (s : str) :
  squeeze p repl true s = squeeze p repl false (skip p s).
Proof.
  induction s as [|c s IH]; simpl; [done|].
  destruct (p c) eqn:E; simpl; [done|]. by rewrite E.
Qed.

Lemma scan_sub repl n : forall (s : str) adv,
  (length s < n)%nat ->
  concat (map (fun sm : str * match_obj => sm.1 ++ repl) (scan n (Plus p) adv s).1)
    ++ (scan n (Plus p) adv s).2 = squeeze p repl false s.
Proof.
  induction n as [|n IH]; intros s adv Hn; [lia|].
  cbn [scan]. rewrite search_Plus, (squeeze_lead repl s).
  destruct (skip np s) as [|c s'] eqn:E.
  - simpl. rewrite <-(lead_skip np s) at 1. by rewrite E.
  - cbn [m_text m_rest].
    assert (length (skip p s') < n)%nat as Hlen.
    { pose proof (skip_length p s'). pose proof (skip_length np s) as Hs.
      rewrite E in Hs. simpl in Hs. lia. }
    specialize (IH (skip p s') (bool_decide (c :: lead p s' = [])) Hlen).
    destruct (scan n _ _ _) as [ms tl]. simpl in *.
    rewrite (skip_np_head _ _ _ E), squeeze_true, <-IH.
    by rewrite <-!app_assoc.
Qed.

(** [re.sub] of a repeated set replaces every run. *)
Lemma sub_Plus repl (s : str) : sub (Plus p) repl s = squeeze p repl false s.
Proof.
  unfold sub. pose proof (scan_sub repl (scan_bound s) s false) as H.
  destruct (scan _ _ _ _) as [ms tl]. apply H. unfold scan_bound. lia.
Qed.

Lemma scan_pieces n : forall (s : str) adv,
  (length s < n)%nat ->
  Forall (fun x : str => Forall (fun c => p c = false /\ c ∈ s) x)
    (map fst (scan n (Plus p) adv s).1 ++ [(scan n (Plus p) adv s).2]).
Proof.
  induction n as [|n IH]; intros s adv Hn; [lia|].
  cbn [scan]. rewrite search_Plus.
  pose proof (lead_skip np s) as Hs. pose proof (Forall_lead_np s) as Hl.
  destruct (skip np s) as [|c s'] eqn:E.
  - simpl. repeat constructor. rewrite app_nil_r in Hs. rewrite Hs in Hl.
    apply Forall_forall. intros c Hc. split; [|done].
    by apply (proj1 (Forall_forall _ _) Hl).
  - cbn [m_text m_rest].
    assert (length (skip p s') < n)%nat as Hlen.
    { pose proof (skip_length p s'). pose proof (skip_length np s) as Hs'.
      rewrite E in Hs'. simpl in Hs'. lia. }
    specialize (IH (skip p s') (bool_decide (c :: lead p s' = [])) Hlen).
    destruct (scan n _ _ _) as [ms tl]. simpl in *.
    constructor.
    + apply Forall_forall. intros d Hd. split.
      * by apply (proj1 (Forall_forall _ _) Hl).
      * rewrite <-Hs. apply elem_of_app. by left.
    + eapply Forall_impl; [exact IH|]. intros x Hx.
      eapply Forall_impl; [exact Hx|]. intros d [Hd Hin]. split; [done|].
      rewrite <-Hs. apply elem_of_app. right. right.
      rewrite <-(lead_skip p s'). apply elem_of_app. by right.
Qed.

(** The pieces [re.split] gives for a repeated set hold characters of
    the subject that are not in the set. *)
Lemma split_Plus_pieces (s : str) :
  Forall (fun x : str => Forall (fun c => p c = false /\ c ∈ s) x) (split (Plus p) s).
Proof.
  unfold split. pose proof (scan_pieces (scan_bound s) s false) as H.
  destruct (scan _ _ _ _) as [ms tl]. apply H. unfold scan_bound. lia.
Qed.

End ScanPlus.

(** ** The bound of the scanner is never reached *)

Lemma match_at_split r adv (s : str) m :
  match_at r adv s = Some m ->
  s = m_text m ++ m_rest m /\ (adv = true -> m_text m <> []).
Proof.
  unfold match_at. destruct (mk r s [] _) as [[s' g']|] eqn:E; [|done].
  intros [= <-]. simpl.
  apply mk_sound in E as (s1 & g1 & Hsem & Hk).
  apply sem_suffix in Hsem as [w ->].
  destruct (adv && _) eqn:Ea; [done|]. injection Hk as -> ->.
  rewrite take_app_rest. split; [done|].
  intros ->. simpl in Ea. apply Nat.eqb_neq in Ea.
  intros ->. by apply Ea.
Qed.

Lemma search_split r : forall (s : str) adv skipped m,
  search r adv s = Some (skipped, m) ->
  s = skipped ++ m_text m ++ m_rest m /\
  (adv = true -> skipped = [] -> m_text m <> []).
Proof.
  induction s as [|c s IH]; intros adv skipped m; cbn [search].
  - destruct (match_at r adv []) as [m'|] eqn:E; [|done].
    intros [= <- <-]. apply match_at_split in E as [? ?]. split; [done|auto].
  - destruct (match_at r adv (c :: s)) as [m'|] eqn:E.
    + intros [= <- <-]. apply match_at_split in E as [? ?]. split; [done|auto].
    + destruct (search r false s) as [[sk m']|] eqn:Es; [|done].
      intros [= <- <-]. apply IH in Es as [-> _]. by split.
Qed.

Lemma scan_S n r adv (s : str) :
  scan (S n) r adv s =
    match search r adv s with
    | None => ([], s)
    | Some (skipped, m) =>
        let '(ms, tl) := scan n r (bool_decide (m_text m = [])) (m_rest m) in
        ((skipped, m) :: ms, tl)
    end.
Proof. done. Qed.

Lemma scan_stable r n : forall (adv : bool) (s : str),
  (2 * length s + (if adv then 0 else 1) < n)%nat ->
  scan (S n) r adv s = scan n r adv s.
Proof.
  induction n as [|n IH]; intros adv s Hn; [lia|].
  rewrite (scan_S (S n)), (scan_S n).
  destruct (search r adv s) as [[skipped m]|] eqn:E; [|done].
  rewrite IH; [done|].
  apply search_split in E as [Hs Hadv].
  apply (f_equal length) in Hs. rewrite !length_app in Hs.
  case_bool_decide as Hm.
  - rewrite Hm in *. simpl in Hs.
    destruct skipped as [|c sk]; simpl in Hs; [|lia].
    destruct adv; [by destruct Hadv|lia].
  - destruct (m_text m); [done|]. simpl in Hs. lia.
Qed.

(** More iterations than [scan_bound] allows change nothing. *)
Lemma scan_bound_enough r (s : str) n :
  (scan_bound s <= n)%nat -> scan n r false s = scan (scan_bound s) r false s.
Proof.
  induction 1 as [|n Hle IH]; [done|].
  rewrite scan_stable; [done|]. unfold scan_bound in Hle. lia.
Qed.

(** ** Built-ins *)

Lemma Forall_skip {P : char -> Prop} (p : char -> bool) (s : str) :
  Forall P s -> Forall P (skip p s).
Proof.
  intros H. rewrite <-(lead_skip p s) in H. by apply Forall_app in H as [_ ?].
Qed.

Lemma Forall_strip {P : char -> Prop} (s : str) : Forall P s -> Forall P (strip s).
Proof.
  intros H. unfold strip, rstrip, lstrip.
  by apply Forall_rev, Forall_skip, Forall_rev, Forall_skip.
Qed.

Lemma isdigit_nonempty (s : str) : isdigit s = true -> s <> [].
Proof. by destruct s. Qed.

Lemma decimal_in_spec zs c d :
  decimal_in zs c = Some d -> exists z, z ∈ zs /\ z <= c /\ c <= z + 9 /\ d = c - z.
Proof.
  induction zs as [|z zs IH]; simpl; [done|].
  unfold in_range at 1. simpl.
  destruct (N.leb_spec z c) as [Ha|Ha], (N.leb_spec c (z + 9)) as [Hb|Hb]; simpl.
  - intros [= <-]. exists z. split; [left|done].
  - intros H. destruct (IH H) as (z' & ? & ?). exists z'. split; [by right|done].
  - intros H. destruct (IH H) as (z' & ? & ?). exists z'. split; [by right|done].
  - intros H. destruct (IH H) as (z' & ? & ?). exists z'. split; [by right|done].
Qed.

(** Two facts read off the tables: the only decimal digits below 127
    are the ASCII digits, and no decimal digit is white space. *)
Lemma decimal_zeros_ascii :
  Forall (fun z => z = 0x30 \/ 127 <= z) decimal_zeros.
Proof.
  apply Forall_forall. intros z Hz.
  assert (forallb (fun z => (z =? 0x30) || (127 <=? z)) decimal_zeros = true) as H by done.
  rewrite forallb_forall in H. apply list_elem_of_In in Hz. specialize (H z Hz).
  apply orb_prop in H as [H|H]; [left; by apply N.eqb_eq|right; by apply N.leb_le].
Qed.

Lemma decimal_zeros_space :
  Forall (fun z => Forall (fun r : N * N => z + 9 < r.1 \/ r.2 < z) whitespace_ranges)
    decimal_zeros.
Proof.
  apply Forall_forall. intros z Hz. apply Forall_forall. intros r Hr.
  assert (forallb (fun z => forallb (fun r : N * N => (z + 9 <? r.1) || (r.2 <? z))
                     whitespace_ranges) decimal_zeros = true) as H by done.
  rewrite forallb_forall in H. apply list_elem_of_In in Hz, Hr. specialize (H z Hz).
  rewrite forallb_forall in H. specialize (H r Hr).
  apply orb_prop in H as [H|H]; [left; by apply N.ltb_lt|right; by apply N.ltb_lt].
Qed.

Lemma decimal_not_space c : is_decimal c = true -> is_space c = false.
Proof.
  unfold is_decimal, decimal_value. destruct (decimal_in _ c) as [d|] eqn:E; [|done].
  intros _. apply decimal_in_spec in E as (z & Hz & Hlo & Hhi & _).
  pose proof (proj1 (Forall_forall _ _) decimal_zeros_space z Hz) as Hsp.
  unfold is_space. apply not_true_is_false. intros H.
  apply existsb_exists in H as (r & Hr & Hin).
  apply list_elem_of_In in Hr.
  pose proof (proj1 (Forall_forall _ _) Hsp r Hr) as Hd.
  unfold in_range in Hin. apply andb_prop in Hin as [H1 H2].
  apply N.leb_le in H1, H2. simpl in *. lia.
Qed.

Lemma to_ascii_decimal c :
  is_decimal c = true -> exists d, d <= 9 /\ to_ascii c = 0x30 + d.
Proof.
  intros Hc. pose proof (decimal_not_space c Hc) as Hsp.
  unfold is_decimal, decimal_value in Hc. unfold to_ascii, decimal_value.
  destruct (decimal_in _ c) as [d|] eqn:E; [|done].
  apply decimal_in_spec in E as (z & Hz & Hlo & Hhi & ->).
  destruct (N.ltb_spec c 127).
  - pose proof (proj1 (Forall_forall _ _) decimal_zeros_ascii z Hz) as [->|?]; [|lia].
    exists (c - 0x30). lia.
  - rewrite Hsp. exists (c - z). lia.
Qed.

Lemma ascii_digit_add d : d <= 9 -> ascii_digit (0x30 + d) = true.
Proof.
  intros H. unfold ascii_digit, in_range. simpl.
  apply andb_true_intro. split; apply N.leb_le; lia.
Qed.

Lemma ascii_digit_not_space c : ascii_digit c = true -> ascii_space c = false.
Proof.
  unfold ascii_digit, ascii_space, in_range. simpl. intros H.
  apply andb_prop in H as [H1 H2]. apply N.leb_le in H1, H2.
  apply orb_false_intro.
  - apply andb_false_intro2. apply N.leb_gt. lia.
  - apply N.eqb_neq. lia.
Qed.

Lemma int_digits_all (s : str) : forall acc,
  Forall (fun c => is_decimal c = true) s ->
  exists v, int_digits acc false (map to_ascii s) = Some (v, []).
Proof.
  induction s as [|c s IH]; intros acc Hs; simpl.
  - by exists acc.
  - apply Forall_cons in Hs as [Hc Hs].
    destruct (to_ascii_decimal c Hc) as (d & Hd & ->).
    rewrite ascii_digit_add by done. by apply IH.
Qed.

(** [int] accepts every non-empty string of decimal digits. *)
Lemma int_str_decimal (s : str) :
  s <> [] -> Forall (fun c => is_decimal c = true) s -> exists z, int_str s = Ok z.
Proof.
  intros Hne Hs. destruct s as [|c s]; [done|].
  destruct (int_digits_all (c :: s) 0 Hs) as [v Hv].
  unfold int_str. simpl map in *.
  apply Forall_cons in Hs as [Hc Hs].
  destruct (to_ascii_decimal c Hc) as (d & Hd & Hasc). rewrite Hasc in *.
  pose proof (ascii_digit_add d Hd) as Hdig.
  cbn [skip_blanks]. rewrite (ascii_digit_not_space _ Hdig).
  unfold int_sign.
  replace (0x30 + d =? 0x2B) with false by (symmetry; apply N.eqb_neq; lia).
  replace (0x30 + d =? 0x2D) with false by (symmetry; apply N.eqb_neq; lia).
  rewrite Hdig, Hv. simpl. by eexists.
Qed.

(** ** The parser never raises *)

Lemma for_each_ok {A S} (body : A -> S -> res S) (xs : list A) :
  (forall x s, x ∈ xs -> exists s', body x s = Ok s') ->
  forall s, exists s', for_each xs body s = Ok s'.
Proof.
  induction xs as [|x xs IH]; intros Hb s; simpl.
  - by exists s.
  - destruct (Hb x s) as [s1 ->]; [left|]. simpl.
    apply IH. intros y t Hy. apply Hb. by right.
Qed.

Lemma for_each_ext {A S} (body1 body2 : A -> S -> res S) (xs : list A) :
  (forall x s, body1 x s = body2 x s) ->
  forall s, for_each xs body1 s = for_each xs body2 s.
Proof.
  intros Hb. induction xs as [|x xs IH]; intros s; simpl; [done|].
  rewrite Hb. destruct (body2 x s); simpl; [apply IH|done].
Qed.

Lemma mem_app c (a b : str) : mem c (a ++ b) = mem c a || mem c b.
Proof. apply existsb_app. Qed.

Lemma seat_not_sep c :
  seat_char c = true -> sep_char c = false -> is_decimal c = true.
Proof.
  unfold seat_char, sep_char.
  assert (U "、,．.・" = U "、,．." ++ U "・") as -> by done.
  rewrite mem_app.
  generalize (mem c (U "、,．.")) (mem c (U "・")) (is_decimal c) (is_space c).
  intros [] [] [] []; simpl; congruence.
Qed.

Lemma seat_body_ok class_name row_num (sp : str) results :
  Forall (fun c => is_decimal c = true) sp ->
  exists l, seat_body class_name row_num sp results = Ok l.
Proof.
  intros Hsp. unfold seat_body.
  destruct (isdigit (strip sp)) eqn:E; [|by eexists].
  destruct (int_str_decimal (strip sp)) as [z ->].
  - by apply isdigit_nonempty.
  - by apply Forall_strip.
  - by eexists.
Qed.

Lemma seat_parts_decimal (seat_str : str) :
  Forall (fun c => seat_char c = true) seat_str ->
  Forall (fun sp : str => Forall (fun c => is_decimal c = true) sp)
    (split SEPARATORS (strip seat_str)).
Proof.
  intros Hs. apply (Forall_strip (P := fun c => seat_char c = true)) in Hs.
  eapply Forall_impl; [apply split_Plus_pieces|]. intros sp Hsp.
  eapply Forall_impl; [exact Hsp|]. intros c [Hc Hin].
  apply seat_not_sep; [|done].
  by apply (proj1 (Forall_forall _ _) Hs).
Qed.

Lemma block_requests_ok block m results :
  block_match block = Some m -> exists l, block_requests m results = Ok l.
Proof.
  intros Hm. apply block_match_groups in Hm as (w1 & w2 & w3 & Hg & Hne2 & Hw2 & _ & Hw3).
  unfold block_requests, group. rewrite Hg. simpl.
  destruct (int_str_decimal w2 Hne2 Hw2) as [z ->]. simpl.
  apply for_each_ok. intros sp results' Hsp.
  apply seat_body_ok.
  by apply (proj1 (Forall_forall _ _) (seat_parts_decimal w3 Hw3)).
Qed.

Lemma block_body_ok block results :
  exists l, block_body block_match block results = Ok l.
Proof.
  unfold block_body. destruct (strip block) as [|c b] eqn:E; [by eexists|].
  destruct (block_match (c :: b)) as [m|] eqn:Em; [|by eexists].
  by eapply block_requests_ok.
Qed.

Lemma parse_seat_text_ok text :
  exists l, parse_seat_text text = Ok l /\ NoDup l.
Proof.
  unfold parse_seat_text, parse_with.
  destruct (for_each_ok (block_body block_match)
              (split BLOCK_START (replace 0x3000 0x20 (replace 0x3000 0x20 text)))
              (fun x s _ => block_body_ok x s) []) as [results ->].
  simpl. eexists. split; [done|]. apply NoDup_remove_dups.
Qed.

(** ** The normaliser *)

Lemma skip_snoc (p : char -> bool) (a : str) c :
  skip p (a ++ [c]) =
    match skip p a with
    | [] => if p c then [] else [c]
    | t => t ++ [c]
    end.
Proof.
  induction a as [|d a IH]; simpl; [done|].
  destruct (p d); [done|done].
Qed.

Lemma rstrip_cons c (s : str) :
  rstrip (c :: s) =
    match rstrip s with
    | [] => if is_space c then [] else [c]
    | t => c :: t
    end.
Proof.
  unfold rstrip, lstrip. change (rev (c :: s)) with (rev s ++ [c]). rewrite skip_snoc.
  destruct (skip is_space (rev s)) as [|d t] eqn:E; simpl.
  - by destruct (is_space c).
  - rewrite rev_app_distr. simpl.
    destruct (rev t ++ [d]) eqn:E'; [by destruct (rev t)|done].
Qed.

Lemma rstrip_all_space (s : str) :
  Forall (fun c => is_space c = true) s -> rstrip s = [].
Proof.
  induction 1 as [|c s Hc _ IH]; [done|]. by rewrite rstrip_cons, IH, Hc.
Qed.

Lemma words_nil (s : str) : words s = [] -> Forall (fun c => is_space c = true) s.
Proof.
  induction s as [|c s IH]; [constructor|].
  cbn [words]. destruct (is_space c) eqn:Ec.
  - intros H. constructor; [done|by apply IH].
  - destruct s as [|c' s']; [done|].
    destruct (is_space c'); [done|]. by destruct (words (c' :: s')).
Qed.

Lemma words_wordlike (s : str) : Forall wordlike (words s).
Proof.
  induction s as [|c s IH]; [constructor|].
  cbn [words]. destruct (is_space c) eqn:Ec; [done|].
  destruct s as [|c' s'].
  - repeat constructor; done.
  - destruct (is_space c') eqn:Ec'.
    + constructor; [|done]. repeat constructor; done.
    + destruct (words (c' :: s')) as [|w ws].
      * repeat constructor; done.
      * apply Forall_cons in IH as [[Hne Hw] Hws].
        constructor; [|done]. split; [done|by constructor].
Qed.

Lemma join_nil (ws : list str) : Forall wordlike ws -> join ws = [] -> ws = [].
Proof.
  destruct 1 as [|w ws [Hne _] _]; [done|].
  simpl. destruct ws; [done|]. by destruct w.
Qed.

Lemma join_cons_char c (w : str) (ws : list str) :
  join ((c :: w) :: ws) = c :: join (w :: ws).
Proof. simpl. by destruct ws. Qed.

Lemma rstrip_cons_nonspace c (s : str) :
  is_space c = false -> rstrip (c :: s) = c :: rstrip s.
Proof. intros E. rewrite rstrip_cons, E. by destruct (rstrip s). Qed.

Lemma rstrip_cons_space c (s : str) :
  is_space c = true ->
  rstrip (c :: s) = match rstrip s with [] => [] | t => c :: t end.
Proof. intros E. by rewrite rstrip_cons, E. Qed.

Lemma squeeze_rstrip_words (s : str) :
  squeeze is_space (U " ") true (rstrip s) = join (words s).
Proof.
  induction s as [|c s IH]; [done|].
  cbn [words]. destruct (is_space c) eqn:Ec.
  - rewrite rstrip_cons_space by done.
    destruct (rstrip s) as [|d t] eqn:Er; [by rewrite <-IH|].
    rewrite <-IH. cbn [squeeze]. by rewrite Ec.
  - rewrite rstrip_cons_nonspace by done. cbn [squeeze]. rewrite Ec.
    destruct s as [|c' s']; [done|].
    destruct (is_space c') eqn:Ec'.
    + rewrite rstrip_cons_space in IH |- * by done.
      destruct (rstrip s') as [|d t] eqn:Er.
      * symmetry in IH. apply join_nil in IH; [|apply words_wordlike].
        by rewrite IH.
      * cbn [squeeze] in IH |- *. rewrite Ec' in IH |- *.
        rewrite IH.
        destruct (words (c' :: s')) as [|w ws] eqn:Ew; [|done].
        apply words_nil, rstrip_all_space in Ew.
        rewrite rstrip_cons_space, Er in Ew; done.
    + rewrite rstrip_cons_nonspace in IH |- * by done.
      cbn [squeeze] in IH |- *. rewrite Ec' in IH |- *. rewrite IH.
      destruct (words (c' :: s')) as [|w ws] eqn:Ew.
      * apply words_nil in Ew. apply Forall_cons in Ew as [? _]. congruence.
      * by rewrite join_cons_char.
Qed.

Lemma words_skip (s : str) : words (skip is_space s) = words s.
Proof.
  induction s as [|c s IH]; [done|]. simpl skip. cbn [words].
  destruct (is_space c) eqn:Ec; [done|]. cbn [words]. by rewrite Ec.
Qed.

Lemma skip_rstrip_lstrip (s : str) :
  skip is_space (rstrip (lstrip s)) = rstrip (lstrip s).
Proof.
  unfold lstrip. destruct (skip is_space s) as [|c t] eqn:E; [done|].
  apply skip_head in E. rewrite rstrip_cons_nonspace by done.
  simpl. by rewrite E.
Qed.

(** The normaliser joins the words of its argument by single blanks. *)
Lemma normalize_class_words (s : str) : normalize_class s = join (words s).
Proof.
  unfold normalize_class, strip. rewrite sub_Plus.
  rewrite <-skip_rstrip_lstrip, <-squeeze_true, squeeze_rstrip_words.
  unfold lstrip. by rewrite words_skip.
Qed.

Lemma words_word (w : str) : wordlike w -> words w = [w].
Proof.
  intros [Hne Hw]. induction Hw as [|c w Hc Hw IH]; [done|].
  cbn [words]. rewrite Hc. destruct w as [|c' w']; [done|].
  apply Forall_cons in Hw as [Hc' _]. rewrite Hc'. by rewrite IH.
Qed.

Lemma words_app_space (w : str) c (s : str) :
  wordlike w -> is_space c = true -> words (w ++ c :: s) = w :: words s.
Proof.
  intros [Hne Hw] Hsp. induction Hw as [|d w Hd Hw IH]; [done|].
  cbn [app]. cbn [words]. rewrite Hd. destruct w as [|d' w'].
  - cbn [app]. rewrite Hsp. cbn [words]. by rewrite Hsp.
  - cbn [app] in *. apply Forall_cons in Hw as [Hd' _]. rewrite Hd'.
    by rewrite IH.
Qed.

Lemma words_join (ws : list str) : Forall wordlike ws -> words (join ws) = ws.
Proof.
  induction 1 as [|w ws Hw Hws IH]; [done|].
  destruct ws as [|w' ws']; [by apply words_word|].
  change (join (w :: w' :: ws')) with (w ++ 0x20 :: join (w' :: ws')).
  rewrite words_app_space; [by rewrite IH|done..].
Qed.

Lemma normalize_class_idempotent (s : str) :
  normalize_class (normalize_class s) = normalize_class s.
Proof.
  rewrite !normalize_class_words. f_equal. apply words_join, words_wordlike.
Qed.

(** ** The coordinate index *)

Lemma int_str_raises (s : str) e : int_str s = Raise e -> e = ValueError.
Proof.
  unfold int_str. destruct (int_sign _) as [sign a].
  destruct a as [|c a]; [by intros [= <-]|].
  destruct (ascii_digit c); [|by intros [= <-]].
  destruct (int_digits _ _ _) as [[v tl]|]; [|by intros [= <-]].
  destruct (skip_blanks tl); [done|by intros [= <-]].
Qed.

Lemma int_value_raises v e : int_value v = Raise e -> caught e = true.
Proof.
  destruct v; simpl; try done; try (by intros [= <-]).
  intros H. by rewrite (int_str_raises _ _ H).
Qed.

(** One position either enters its key or leaves the index alone. *)
Lemma index_body_enter ws_class ws_row ws_seat r c m :
  index_body ws_class ws_row ws_seat r c m = Ok (enter ws_class ws_row ws_seat m (r, c)).
Proof.
  unfold index_body, enter, key_at. simpl.
  destruct (_ || _); [done|].
  destruct (int_value (cell_value (ws_cell ws_row r c))) as [rv|e] eqn:Er.
  - destruct (int_value (cell_value (ws_cell ws_seat r c))) as [sv|e] eqn:Es; [done|].
    by rewrite (int_value_raises _ _ Es).
  - by rewrite (int_value_raises _ _ Er).
Qed.

Lemma for_each_foldl {A S} (body : A -> S -> res S) (f : S -> A -> S) (xs : list A) :
  (forall x s, body x s = Ok (f s x)) ->
  forall s, for_each xs body s = Ok (foldl f s xs).
Proof.
  intros Hb. induction xs as [|x xs IH]; intros s; simpl; [done|].
  rewrite Hb. simpl. apply IH.
Qed.

Lemma foldl_flat_map {A B S} (f : S -> B -> S) (g : A -> list B) (xs : list A) :
  forall s, foldl f s (flat_map g xs) = foldl (fun s x => foldl f s (g x)) s xs.
Proof.
  induction xs as [|x xs IH]; intros s; simpl; [done|].
  by rewrite foldl_app, IH.
Qed.

Lemma build_index_positions ws_class ws_row ws_seat :
  build_index ws_class ws_row ws_seat =
  Ok (index_of ws_class ws_row ws_seat (positions ws_class)).
Proof.
  unfold build_index, index_of, positions. rewrite foldl_flat_map.
  apply for_each_foldl. intros r m.
  unfold row_positions. rewrite foldl_fmap.
  apply for_each_foldl. intros c m'. apply index_body_enter.
Qed.

(** The index maps a key to the last position that stands for it. *)
Lemma index_of_last ws_class ws_row ws_seat (ps : list coord) (k : key) :
  index_of ws_class ws_row ws_seat ps !! k =
  last (filter (fun p => key_at ws_class ws_row ws_seat p = Some k) ps).
Proof.
  unfold index_of. induction ps as [|p ps IH] using rev_ind; [done|].
  rewrite foldl_snoc, filter_app. unfold enter at 1.
  destruct (key_at ws_class ws_row ws_seat p) as [k'|] eqn:E.
  - destruct (decide (k' = k)) as [->|Hne].
    + rewrite lookup_insert_eq.
      rewrite (filter_cons_True _ p []) by done.
      by rewrite filter_nil, last_snoc.
    + rewrite lookup_insert_ne by done.
      rewrite (filter_cons_False _ p []) by congruence.
      by rewrite filter_nil, app_nil_r.
  - rewrite (filter_cons_False _ p []) by congruence.
    by rewrite filter_nil, app_nil_r.
Qed.




(** ** Reconciliation *)

Section Reconcile.

Variable coord_map : gmap key coord.

Lemma reconcile_body_hit st (rq : request) r c :
  coord_map !! request_key rq = Some (r, c) ->
  reconcile_body coord_map st rq =
    Recon (set_fill (seat_sheet st) r c BLUE_FILL)
      (matched st ++ [Hit rq.1.1 rq.1.2 rq.2 (r, c)]) (unmatched st).
Proof. destruct rq as [[cn rn] sn]. unfold reconcile_body. by intros ->. Qed.

Lemma reconcile_body_miss st (rq : request) :
  coord_map !! request_key rq = None ->
  reconcile_body coord_map st rq =
    Recon (seat_sheet st) (matched st) (unmatched st ++ [rq]).
Proof. destruct rq as [[cn rn] sn]. unfold reconcile_body. by intros ->. Qed.

Lemma foldl_reconcile_lists (seats : list request) : forall st,
  hit_request <$> matched (foldl (reconcile_body coord_map) st seats)
    = (hit_request <$> matched st) ++ hits coord_map seats /\
  unmatched (foldl (reconcile_body coord_map) st seats)
    = unmatched st ++ misses coord_map seats.
Proof.
  unfold hits, misses.
  induction seats as [|rq seats IH]; intros st; simpl.
  - by rewrite !app_nil_r.
  - destruct (IH (reconcile_body coord_map st rq)) as [-> ->].
    destruct (coord_map !! request_key rq) as [[r c]|] eqn:E.
    + rewrite (reconcile_body_hit _ _ r c E). simpl.
      rewrite filter_cons_True by (by rewrite E).
      rewrite filter_cons_False by (by rewrite E).
      rewrite fmap_app, <-app_assoc. by destruct rq as [[? ?] ?].
    + rewrite (reconcile_body_miss _ _ E). simpl.
      rewrite filter_cons_False by (rewrite E; by intros [? ?]).
      rewrite filter_cons_True by done.
      by rewrite <-app_assoc.
Qed.

Lemma reconcile_lists (seats : list request) ws_seat :
  hit_request <$> matched (reconcile coord_map seats ws_seat) = hits coord_map seats /\
  unmatched (reconcile coord_map seats ws_seat) = misses coord_map seats.
Proof.
  unfold reconcile.
  by destruct (foldl_reconcile_lists seats (Recon ws_seat [] [])) as [-> ->].
Qed.

Lemma hits_misses_disjoint (seats : list request) rq :
  rq ∈ hits coord_map seats -> rq ∉ misses coord_map seats.
Proof.
  unfold hits, misses. rewrite !list_elem_of_filter.
  intros [[p Hp] _] [Hn _]. congruence.
Qed.

Lemma hits_misses_perm (seats : list request) : hits coord_map seats ++ misses coord_map seats ≡ₚ seats.
Proof.
  unfold hits, misses.
  rewrite (list_filter_iff (fun rq => coord_map !! request_key rq = None)
             (fun rq => ~ is_Some (coord_map !! request_key rq))).
  - apply filter_app_complement.
  - intros rq. apply eq_None_not_Some.
Qed.

Lemma ws_cell_set_fill_ne ws r c f r' c' :
  (r, c) <> (r', c') -> ws_cell (set_fill ws r c f) r' c' = ws_cell ws r' c'.
Proof. intros Hne. unfold ws_cell, set_fill. simpl. by rewrite lookup_insert_ne. Qed.

Lemma ws_cell_set_fill_value ws r c f r' c' :
  cell_value (ws_cell (set_fill ws r c f) r' c') = cell_value (ws_cell ws r' c').
Proof.
  unfold ws_cell at 1, set_fill. simpl.
  destruct (decide ((r, c) = (r', c'))) as [[= <- <-]|Hne].
  - by rewrite lookup_insert_eq.
  - by rewrite lookup_insert_ne.
Qed.

(** The loop leaves every cell alone whose position is not in the table
    of matched seats, and changes no value at all. *)
Lemma foldl_reconcile_frame (seats : list request) : forall st r c,
  let st' := foldl (reconcile_body coord_map) st seats in
  ((r, c) ∉ hit_cell <$> matched st' ->
   ws_cell (seat_sheet st') r c = ws_cell (seat_sheet st) r c) /\
  cell_value (ws_cell (seat_sheet st') r c) = cell_value (ws_cell (seat_sheet st) r c) /\
  exists hs, matched st' = matched st ++ hs.
Proof.
  induction seats as [|rq seats IH]; intros st r c; simpl.
  - split; [done|]. split; [done|]. exists []. by rewrite app_nil_r.
  - destruct (IH (reconcile_body coord_map st rq) r c) as (Hf & Hv & hs & Hm).
    destruct (coord_map !! request_key rq) as [[r0 c0]|] eqn:E.
    + rewrite (reconcile_body_hit _ _ r0 c0 E) in *. simpl in *.
      split; [|split].
      * intros Hnot. rewrite Hf by done. apply ws_cell_set_fill_ne.
        intros [= -> ->]. apply Hnot. rewrite Hm, !fmap_app. simpl.
        apply elem_of_app. left. apply elem_of_app. right. by left.
      * by rewrite Hv, ws_cell_set_fill_value.
      * eexists. by rewrite Hm, <-app_assoc.
    + rewrite (reconcile_body_miss _ _ E) in *. simpl in *.
      split; [done|]. split; [done|]. by exists hs.
Qed.

End Reconcile.

(** ** One run *)

Lemma run_unparsed seat_text uploaded date_str :
  parse_seat_text seat_text = Ok [] ->
  run seat_text uploaded date_str start = (Halt, World [Error_unparsed] None).
Proof. intros H. unfold run, mbind, script_bind, lift. by rewrite H. Qed.

Lemma run_missing seat_text uploaded date_str seats :
  parse_seat_text seat_text = Ok seats ->
  seats <> [] ->
  missing_sheets uploaded <> [] ->
  run seat_text uploaded date_str start =
    (Halt, World [Write_count (length seats); Load_workbook;
                  Error_missing (missing_sheets uploaded)] (Some uploaded)).
Proof.
  intros Hp Hs Hm. unfold run, mbind, script_bind, lift. rewrite Hp.
  destruct seats as [|rq seats]; [done|]. simpl.
  by destruct (missing_sheets uploaded).
Qed.

Lemma elem_of_missing_sheets (wb : workbook) s :
  s ∈ missing_sheets wb <-> s ∈ required_sheets /\ s ∉ sheetnames wb.
Proof. unfold missing_sheets. rewrite list_elem_of_filter. tauto. Qed.

Lemma block_body_ext (f1 f2 : str -> option match_obj) block results :
  (forall b, f1 b = f2 b) ->
  block_body f1 block results = block_body f2 block results.
Proof. intros H. unfold block_body. destruct (strip block); [done|]. by rewrite H. Qed.

Lemma parse_with_ext (f1 f2 : str -> option match_obj) text :
  (forall b, f1 b = f2 b) -> parse_with f1 text = parse_with f2 text.
Proof.
  intros H. unfold parse_with.
  rewrite (for_each_ext (block_body f1) (block_body f2)); [done|].
  intros b r. by apply block_body_ext.
Qed.

(* ===================================================================== *)
(** * Part III: the claims                                                *)
(* ===================================================================== *)

(** C1.  For the text ["Class SS End-1 2列8、9"] the parser returns
    exactly the two requests [("Class SS End-1", 2, 8)] and
    [("Class SS End-1", 2, 9)] (as a collection without order).  The
    match holds the three-token class name whole in group 1, the digits
    before [列] in group 2 and the seat list in group 3, and the seat
    list is split at [、] into the tokens ["8"] and ["9"]. *)
Theorem C1_parse_class_ss_end_1 :
  (exists l,
     parse_seat_text (U "Class SS End-1 2列8、9") = Ok l /\
     l ≡ₚ [(U "Class SS End-1", 2%Z, 8%Z); (U "Class SS End-1", 2%Z, 9%Z)]) /\
  (exists m,
     block_match (U "Class SS End-1 2列8、9") = Some m /\
     group m 1 = Some (U "Class SS End-1") /\
     group m 2 = Some (U "2") /\
     group m 3 = Some (U "8、9")) /\
  split SEPARATORS (strip (U "8、9")) = [U "8"; U "9"].
Proof.
  split; [|split].
  - eexists. split; [by vm_compute|]. done.
  - eexists. by vm_compute.
  - by vm_compute.
Qed.


(** C7.  The normaliser is idempotent; its result is the words of its
    argument (the maximal runs of characters that are not white space)
    joined by single ordinary blanks, so every run of white space is
    collapsed to one blank and leading and trailing white space is
    dropped; ["Class  S   South"] and ["Class S South"] have the same
    normal form. *)
Theorem C7_normalize_class_idempotent :
  (forall x, normalize_class (normalize_class x) = normalize_class x) /\
  (forall x, normalize_class x = join (words x)) /\
  normalize_class (U "Class  S   South") = normalize_class (U "Class S South").
Proof.
  split; [apply normalize_class_idempotent|].
  split; [apply normalize_class_words|by vm_compute].
Qed.

(** C9.  Parsing the empty text returns the empty collection without
    raising; and whenever the parser returns no request, the run shows
    the parse error and halts: nothing else is shown and the workbook is
    never loaded. *)
Theorem C9_empty_parse_halts :
  parse_seat_text (U "") = Ok [] /\
  (forall seat_text uploaded date_str,
     parse_seat_text seat_text = Ok [] ->
     run seat_text uploaded date_str start = (Halt, World [Error_unparsed] None)).
Proof. split; [by vm_compute|apply run_unparsed]. Qed.

Lemma C9_empty_parse_halts_witness :
  parse_seat_text (U "S South 1-33") = Ok [] /\
  run (U "S South 1-33") other_book (U "0101") start
    = (Halt, World [Error_unparsed] None).
Proof.
  assert (parse_seat_text (U "S South 1-33") = Ok []) as H by (by vm_compute).
  split; [exact H|]. exact (proj2 C9_empty_parse_halts _ _ _ H).
Defined.

(** C10.  The second pattern is never needed: on every block on which
    the first pattern fails the second fails too, and the parser with
    the second attempt removed returns what the parser returns, on every
    text. *)
Theorem C10_second_pattern_unreachable :
  (forall block, rmatch PATTERN_1 block = None -> rmatch PATTERN_2 block = None) /\
  (forall text, parse_with (rmatch PATTERN_1) text = parse_seat_text text).
Proof.
  split.
  - intros block H. rewrite rmatch_PATTERN_1 in H.
    by destruct (rmatch PATTERN_2 block).
  - intros text. unfold parse_seat_text. apply parse_with_ext.
    intros b. symmetry. apply block_match_PATTERN_1.
Qed.

Lemma C10_second_pattern_unreachable_witness :
  rmatch PATTERN_1 (U "Class A 1") = None /\ rmatch PATTERN_2 (U "Class A 1") = None.
Proof.
  assert (rmatch PATTERN_1 (U "Class A 1") = None) as H by (by vm_compute).
  split; [exact H|]. exact (proj1 C10_second_pattern_unreachable _ H).
Defined.

(** C2, the claim as stated fails.  On the block
    ["Class SS-T 1列8 2列3"] both forms are grammatical: the two-token
    form reads class ["Class SS-T"], row 1, and the three-token form
    reads class ["Class SS-T 1列8"], row 2.  The parser takes the
    three-token reading and returns the single request
    [("Class SS-T 1列8", 2, 3)]. *)
Lemma C2_two_token_reading_loses :
  exists m2 m3,
    rmatch TWO_TOKEN (U "Class SS-T 1列8 2列3") = Some m2 /\
    rmatch PATTERN_2 (U "Class SS-T 1列8 2列3") = Some m3 /\
    group m2 1 = Some (U "Class SS-T") /\ group m2 2 = Some (U "1") /\
    group m3 1 = Some (U "Class SS-T 1列8") /\ group m3 2 = Some (U "2") /\
    block_match (U "Class SS-T 1列8 2列3") = Some m3 /\
    block_match (U "Class SS-T 1列8 2列3") <> Some m2 /\
    parse_seat_text (U "Class SS-T 1列8 2列3") = Ok [(U "Class SS-T 1列8", 2%Z, 3%Z)].
Proof. do 2 eexists. by vm_compute. Qed.

(** C2, amended.  The first pattern of the parser takes a two-token
    class name with an optional third token, the third token first: on
    every block the match the parser uses is the three-token reading
    whenever the three-token form matches, and the two-token reading
    when it does not. *)
Theorem C2_three_token_reading_first (block : str) :
  block_match block =
    match rmatch PATTERN_2 block with
    | Some m3 => Some m3
    | None => rmatch TWO_TOKEN block
    end.
Proof. rewrite block_match_PATTERN_1. apply rmatch_PATTERN_1. Qed.

(** C3.  For every index, sheet and list of distinct requests, the loop
    puts each request in exactly one of the two lists: the requests of
    the matched rows followed by the unmatched requests are the given
    requests in some order, without repetition, no request is in both
    lists, and the two lengths add up to the number of requests. *)
Theorem C3_reconcile_partitions (coord_map : gmap key coord)
    (seats : list request) (ws_seat : worksheet) :
  NoDup seats ->
  let rc := reconcile coord_map seats ws_seat in
  (length (matched rc) + length (unmatched rc) = length seats)%nat /\
  (hit_request <$> matched rc) ++ unmatched rc ≡ₚ seats /\
  NoDup ((hit_request <$> matched rc) ++ unmatched rc) /\
  (forall rq, rq ∈ seats ->
     (rq ∈ (hit_request <$> matched rc) /\ rq ∉ unmatched rc) \/
     ((rq ∉ (hit_request <$> matched rc)) /\ rq ∈ unmatched rc)).
Proof.
  intros Hnd rc.
  destruct (reconcile_lists coord_map seats ws_seat) as [Hm Hu].
  fold rc in Hm, Hu.
  pose proof (hits_misses_perm coord_map seats) as Hperm.
  rewrite <-Hm, <-Hu in Hperm.
  split; [|split; [done|split]].
  - apply Permutation_length in Hperm.
    by rewrite length_app, length_fmap in Hperm.
  - by rewrite Hperm.
  - intros rq Hrq. rewrite <-Hperm in Hrq. apply elem_of_app in Hrq as [Hh|Hmiss].
    + left. split; [done|]. rewrite Hu. apply hits_misses_disjoint. by rewrite <-Hm.
    + right. split; [|done]. intros Hh. rewrite Hm in Hh.
      apply hits_misses_disjoint in Hh. by rewrite <-Hu in Hh.
Qed.

Lemma C3_reconcile_partitions_witness :
  NoDup [south_1_33; south_1_5] /\
  (length (matched (reconcile one_seat_index [south_1_33; south_1_5] blank_sheet)) +
   length (unmatched (reconcile one_seat_index [south_1_33; south_1_5] blank_sheet))
   = 2)%nat.
Proof.
  assert (NoDup [south_1_33; south_1_5]) as H.
  { apply NoDup_cons. split; [|apply NoDup_singleton].
    intros Hin. apply list_elem_of_singleton in Hin. discriminate Hin. }
  split; [exact H|].
  exact (proj1 (C3_reconcile_partitions one_seat_index _ blank_sheet H)).
Defined.

(** C4, the claim as stated fails.  With a workbook that has none of
    the three sheets and the text ["S South 1-33"], from which the
    parser gets no request, the run halts with the parse error: no
    error names a missing sheet and the workbook is not even loaded.
    And with the text ["Class S South 1列33"] the run has already shown
    the number of parsed requests when it halts on the missing sheets. *)
Lemma C4_missing_sheet_unreported :
  missing_sheets other_book = required_sheets /\
  run (U "S South 1-33") other_book (U "0101") start
    = (Halt, World [Error_unparsed] None) /\
  run (U "Class S South 1列33") other_book (U "0101") start
    = (Halt, World [Write_count 1; Load_workbook; Error_missing required_sheets]
         (Some other_book)).
Proof. repeat split; by vm_compute. Qed.

(** C4, amended.  When the parser returns at least one request and one
    of the three required sheets is absent from the uploaded workbook,
    the run shows the number of parsed requests, loads the workbook,
    shows the error with the list of missing sheets and halts.  The
    list holds exactly the required names that are not sheet names of
    the workbook.  Nothing else happens: the workbook is as uploaded,
    and no table and no download is produced. *)
Theorem C4_missing_sheet_halts seat_text (uploaded : workbook) date_str
    (seats : list request) :
  parse_seat_text seat_text = Ok seats ->
  seats <> [] ->
  missing_sheets uploaded <> [] ->
  run seat_text uploaded date_str start =
    (Halt, World [Write_count (length seats); Load_workbook;
                  Error_missing (missing_sheets uploaded)] (Some uploaded)) /\
  (forall s, s ∈ missing_sheets uploaded <->
             s ∈ required_sheets /\ s ∉ sheetnames uploaded).
Proof.
  intros Hp Hs Hm. split; [by apply run_missing|].
  intros s. apply elem_of_missing_sheets.
Qed.

Lemma C4_missing_sheet_halts_witness :
  parse_seat_text (U "Class S South 1列33") = Ok [south_1_33] /\
  run (U "Class S South 1列33") other_book (U "0101") start =
    (Halt, World [Write_count 1; Load_workbook; Error_missing required_sheets]
       (Some other_book)).
Proof.
  assert (parse_seat_text (U "Class S South 1列33") = Ok [south_1_33]) as Hp
    by (by vm_compute).
  assert ([south_1_33] <> []) as Hs by discriminate.
  assert (missing_sheets other_book <> []) as Hm by (by vm_compute).
  split; [exact Hp|].
  exact (proj1 (C4_missing_sheet_halts _ other_book (U "0101") _ Hp Hs Hm)).
Defined.


(** C8.  A request whose normalised key is not in the index goes to the
    unmatched list and nowhere else, and its turn of the loop changes
    neither the sheet nor the matched list.  After the whole loop every
    cell of the seat sheet whose position is not in the table of
    matched seats is as it was, fill included, and no cell value has
    changed. *)
Theorem C8_unmatched_no_side_effect (coord_map : gmap key coord)
    (seats : list request) (ws_seat : worksheet) (rq : request) :
  rq ∈ seats ->
  coord_map !! request_key rq = None ->
  let rc := reconcile coord_map seats ws_seat in
  rq ∈ unmatched rc /\
  (rq ∉ (hit_request <$> matched rc)) /\
  (forall st, reconcile_body coord_map st rq =
              Recon (seat_sheet st) (matched st) (unmatched st ++ [rq])) /\
  (forall r c, (r, c) ∉ (hit_cell <$> matched rc) ->
               ws_cell (seat_sheet rc) r c = ws_cell ws_seat r c) /\
  (forall r c, cell_value (ws_cell (seat_sheet rc) r c)
               = cell_value (ws_cell ws_seat r c)).
Proof.
  intros Hin Hk rc.
  destruct (reconcile_lists coord_map seats ws_seat) as [Hm Hu].
  fold rc in Hm, Hu.
  assert (rq ∈ misses coord_map seats) as Hmiss.
  { unfold misses. by apply list_elem_of_filter. }
  split; [by rewrite Hu|].
  split.
  { rewrite Hm. intros Hh. by apply hits_misses_disjoint in Hh. }
  split; [intros st; by apply reconcile_body_miss|].
  split.
  - intros r c Hnot.
    by apply (foldl_reconcile_frame coord_map seats (Recon ws_seat [] []) r c).
  - intros r c.
    apply (foldl_reconcile_frame coord_map seats (Recon ws_seat [] []) r c).
Qed.

Lemma C8_unmatched_no_side_effect_witness :
  south_1_5 ∈ [south_1_33; south_1_5] /\
  one_seat_index !! request_key south_1_5 = None /\
  south_1_5 ∈ unmatched (reconcile one_seat_index [south_1_33; south_1_5] blank_sheet).
Proof.
  assert (south_1_5 ∈ [south_1_33; south_1_5]) as Hin
    by (apply list_elem_of_further, list_elem_of_here).
  assert (one_seat_index !! request_key south_1_5 = None) as Hk by (by vm_compute).
  split; [exact Hin|]. split; [exact Hk|].
  exact (proj1 (C8_unmatched_no_side_effect one_seat_index _ blank_sheet _ Hin Hk)).
Defined.

(* ===================================================================== *)
(** * Part IV: further properties                                         *)
(* ===================================================================== *)

(** ** The blocks of a text *)

(** The scanner loses nothing: the skipped texts and the matched texts,
    in order, and the rest make up the subject. *)
Lemma scan_concat r n : forall adv (s : str),
  concat (map (fun sm : str * match_obj => sm.1 ++ m_text sm.2) (scan n r adv s).1)
    ++ (scan n r adv s).2 = s.
Proof.
  induction n as [|n IH]; intros adv s; [done|].
  rewrite scan_S. destruct (search r adv s) as [[skipped m]|] eqn:E; [|done].
  specialize (IH (bool_decide (m_text m = [])) (m_rest m)).
  destruct (scan n r _ (m_rest m)) as [ms tl]. simpl in *.
  apply search_split in E as [-> _]. by rewrite <-!app_assoc, IH.
Qed.

Lemma match_at_BLOCK_START adv (s : str) :
  match_at BLOCK_START adv s =
    if negb adv && starts_entry s then Some (MatchObj [] s []) else None.
Proof.
  unfold match_at, BLOCK_START. cbn [mk]. rewrite mk_Word. unfold starts_entry.
  change (length (U "Class")) with 5%nat.
  case_bool_decide; simpl; [|by rewrite andb_false_r].
  destruct (drop 5 s) as [|c s']; [by rewrite andb_false_r|].
  destruct (is_space c); [|by rewrite andb_false_r].
  rewrite Nat.eqb_refl. destruct adv; simpl; [done|]. by rewrite Nat.sub_diag.
Qed.

Lemma scan_empty_matches n : forall adv (s : str),
  Forall (fun sm : str * match_obj => m_text sm.2 = []) (scan n BLOCK_START adv s).1.
Proof.
  induction n as [|n IH]; intros adv s; [constructor|].
  rewrite scan_S. destruct (search BLOCK_START adv s) as [[skipped m]|] eqn:E; [|constructor].
  specialize (IH (bool_decide (m_text m = [])) (m_rest m)).
  destruct (scan n _ _ (m_rest m)) as [ms tl]. simpl in *.
  constructor; [|done]. simpl.
  clear IH. revert adv skipped E. induction s as [|c s IHs]; intros adv skipped; cbn [search];
    rewrite match_at_BLOCK_START.
  - destruct (_ && _); [by intros [= <- <-]|done].
  - destruct (_ && _); [by intros [= <- <-]|].
    destruct (search BLOCK_START false s) as [[sk m']|] eqn:Es; [|done].
    intros [= <- <-]. by eapply IHs.
Qed.

Lemma concat_skipped (ms : list (str * match_obj)) :
  Forall (fun sm : str * match_obj => m_text sm.2 = []) ms ->
  concat (map (fun sm : str * match_obj => sm.1 ++ m_text sm.2) ms) = concat (map fst ms).
Proof.
  induction 1 as [|[k m] ms Hm _ IH]; [done|]. simpl in *.
  by rewrite Hm, app_nil_r, IH.
Qed.

Lemma split_blocks_concat (text : str) : concat (split BLOCK_START text) = text.
Proof.
  unfold split.
  pose proof (scan_concat BLOCK_START (scan_bound text) false text) as Hc.
  pose proof (scan_empty_matches (scan_bound text) false text) as He.
  destruct (scan _ _ _ _) as [ms tl]. simpl in *.
  rewrite concat_app. simpl. rewrite app_nil_r.
  by rewrite <-concat_skipped.
Qed.

(** Cutting a text into blocks loses no character: the blocks put
    together are the text. *)
Theorem blocks_concat (text : str) : concat (split BLOCK_START text) = text.
Proof. apply split_blocks_concat. Qed.

Lemma starts_entry_inv (s : str) :
  starts_entry s = true ->
  exists c rest, s = U "Class" ++ c :: rest /\ is_space c = true.
Proof.
  unfold starts_entry. intros H. apply andb_prop in H as [H1 H2].
  apply bool_decide_eq_true in H1.
  destruct (drop 5 s) as [|c rest] eqn:E; [done|].
  exists c, rest. split; [|done].
  by rewrite <-(take_drop 5 s), H1, E.
Qed.

Lemma starts_entry_intro c (rest : str) :
  is_space c = true -> starts_entry (U "Class" ++ c :: rest) = true.
Proof.
  intros Hc. unfold starts_entry.
  rewrite (take_app_length' (U "Class")), (drop_app_length' (U "Class")) by done.
  by rewrite bool_decide_eq_true_2.
Qed.

Lemma starts_entry_app (x y : str) :
  starts_entry x = true -> starts_entry (x ++ y) = true.
Proof.
  intros H. apply starts_entry_inv in H as (c & rest & -> & Hc).
  rewrite <-app_assoc. by apply starts_entry_intro.
Qed.

Lemma entry_free_in_free (k rest : str) :
  entry_free_in k rest = true -> entry_free k = true.
Proof.
  induction k as [|c k IH]; [done|]. cbn [entry_free_in entry_free].
  intros H. apply andb_prop in H as [H1 H2]. rewrite (IH H2), andb_true_r.
  destruct (starts_entry (c :: k)) eqn:E; [|done].
  apply (starts_entry_app _ rest) in E. simpl in *. by rewrite E in H1.
Qed.

Lemma search_BLOCK_START_None (s : str) :
  search BLOCK_START false s = None -> entry_free s = true.
Proof.
  induction s as [|c s IH]; [done|]. cbn [search entry_free].
  rewrite match_at_BLOCK_START. simpl.
  destruct (starts_entry (c :: s)); [done|].
  destruct (search BLOCK_START false s) as [[? ?]|]; [done|]. intros _. by apply IH.
Qed.

Lemma search_BLOCK_START_false : forall (s k : str) m,
  search BLOCK_START false s = Some (k, m) ->
  m_text m = [] /\ s = k ++ m_rest m /\ starts_entry (m_rest m) = true /\
  entry_free_in k (m_rest m) = true.
Proof.
  induction s as [|c s IH]; intros k m; cbn [search]; rewrite match_at_BLOCK_START; simpl.
  - destruct (starts_entry []) eqn:E; [|done]. by intros [= <- <-].
  - destruct (starts_entry (c :: s)) eqn:E; [by intros [= <- <-]|].
    destruct (search BLOCK_START false s) as [[k' m']|] eqn:Es; [|done].
    intros [= <- <-]. destruct (IH _ _ eq_refl) as (Ht & Hs & Hr & Hf).
    split; [done|]. split; [by rewrite Hs at 1|]. split; [done|].
    cbn [entry_free_in]. rewrite Hf, andb_true_r. simpl. by rewrite <-Hs, E.
Qed.

Lemma search_BLOCK_START_true (s k : str) m :
  search BLOCK_START true s = Some (k, m) ->
  exists c k', k = c :: k' /\
    m_text m = [] /\ s = k ++ m_rest m /\ starts_entry (m_rest m) = true /\
    entry_free_in k' (m_rest m) = true.
Proof.
  destruct s as [|c s]; cbn [search]; rewrite match_at_BLOCK_START; simpl; [done|].
  destruct (search BLOCK_START false s) as [[k' m']|] eqn:Es; [|done].
  intros [= <- <-]. apply search_BLOCK_START_false in Es as (Ht & Hs & Hr & Hf).
  exists c, k'. by rewrite Hs at 1.
Qed.

(** Two entries cannot start less than six characters apart. *)
Lemma starts_entry_apart (k rest : str) :
  k <> [] ->
  starts_entry (k ++ rest) = true ->
  starts_entry rest = true ->
  entry_free_in (tail k) rest = true ->
  starts_entry k = true.
Proof.
  intros Hne Hs Hr Hf.
  apply starts_entry_inv in Hs as (c & t & Hs & Hc).
  apply starts_entry_inv in Hr as (c' & t' & Hr & Hc').
  assert (is_space 67 = false) as HC by done.
  destruct k as [|k0 k]; [done|].
  destruct k as [|k1 k]; [simpl in Hs; rewrite Hr in Hs; by injection Hs|].
  destruct k as [|k2 k]; [simpl in Hs; rewrite Hr in Hs; by injection Hs|].
  destruct k as [|k3 k]; [simpl in Hs; rewrite Hr in Hs; by injection Hs|].
  destruct k as [|k4 k]; [simpl in Hs; rewrite Hr in Hs; by injection Hs|].
  destruct k as [|k5 k].
  { simpl in Hs. rewrite Hr in Hs. injection Hs as _ _ _ _ _ Hs.
    subst c. by vm_compute in Hc. }
  simpl in Hs. injection Hs as -> -> -> -> -> -> Hk.
  by apply (starts_entry_intro c k).
Qed.

Lemma scan_blocks n : forall (adv : bool) (s : str),
  (2 * length s + (if adv then 0 else 1) < n)%nat ->
  (adv = true -> starts_entry s = true) ->
  exists b bs,
    map fst (scan n BLOCK_START adv s).1 ++ [(scan n BLOCK_START adv s).2] = b :: bs /\
    (if adv then starts_entry b = true /\ entry_free (tail b) = true
     else entry_free b = true) /\
    Forall (fun x => starts_entry x = true /\ entry_free (tail x) = true) bs.
Proof.
  induction n as [|n IH]; intros adv s Hn Hadv; [lia|].
  rewrite scan_S. destruct (search BLOCK_START adv s) as [[k m]|] eqn:E.
  - assert (m_text m = [] /\ s = k ++ m_rest m /\ starts_entry (m_rest m) = true /\
            (adv = true -> k <> []) /\ entry_free_in (if adv then tail k else k) (m_rest m) = true)
      as (Ht & Hs & Hr & Hk & Hf).
    { destruct adv.
      - apply search_BLOCK_START_true in E as (c & k' & -> & ? & ? & ? & ?). by repeat split.
      - apply search_BLOCK_START_false in E as (? & ? & ? & ?). by repeat split. }
    rewrite Ht, bool_decide_eq_true_2 by done.
    destruct (IH true (m_rest m)) as (b & bs & Hp & [Hb1 Hb2] & Hbs); [|done|].
    { apply (f_equal length) in Hs. rewrite length_app in Hs.
      destruct adv; [|lia]. destruct k; [by destruct Hk|]. simpl in Hs. lia. }
    destruct (scan n BLOCK_START true (m_rest m)) as [ms tl]. simpl in *.
    exists k, (b :: bs). split; [by rewrite Hp|]. split; [|by constructor].
    destruct adv.
    + split; [|by eapply entry_free_in_free].
      apply (starts_entry_apart k (m_rest m)); auto. by rewrite <-Hs; auto.
    + by eapply entry_free_in_free.
  - simpl. exists s, []. split; [done|]. split; [|constructor].
    destruct adv.
    + split; [auto|]. destruct s as [|c s]; [done|]. simpl.
      cbn [search] in E. rewrite match_at_BLOCK_START in E. simpl in E.
      apply search_BLOCK_START_None. by destruct (search BLOCK_START false s) as [[? ?]|].
    + by apply search_BLOCK_START_None.
Qed.

(** The first block holds no start of an entry; every later block
    starts with [Class] and a white space character and holds no other
    start of an entry. *)
Theorem blocks_shape (text : str) :
  exists b bs,
    split BLOCK_START text = b :: bs /\
    entry_free b = true /\
    Forall (fun x => starts_entry x = true /\ entry_free (tail x) = true) bs.
Proof.
  unfold split.
  destruct (scan_blocks (scan_bound text) false text) as (b & bs & Hp & Hb & Hbs);
    [unfold scan_bound; lia|done|].
  destruct (scan _ _ _ _) as [ms tl]. by exists b, bs.
Qed.

(** ** What [int] reads from a string of digits *)

Lemma to_ascii_decimal_value c :
  is_decimal c = true ->
  exists d, decimal_value c = Some d /\ d <= 9 /\ to_ascii c = 0x30 + d.
Proof.
  intros Hc. pose proof (decimal_not_space c Hc) as Hsp.
  unfold is_decimal in Hc. unfold to_ascii.
  destruct (decimal_value c) as [d|] eqn:E; [|done].
  exists d. split; [done|].
  unfold decimal_value in E. apply decimal_in_spec in E as (z & Hz & Hlo & Hhi & ->).
  destruct (N.ltb_spec c 127).
  - pose proof (proj1 (Forall_forall _ _) decimal_zeros_ascii z Hz) as [->|?]; lia.
  - rewrite Hsp. lia.
Qed.

Lemma int_digits_number (s : str) : forall acc,
  Forall (fun c => is_decimal c = true) s ->
  int_digits acc false (map to_ascii s) =
    Some (foldl (fun acc c => (10 * acc + Z.of_N (default 0%N (decimal_value c)))%Z) acc s, []).
Proof.
  induction s as [|c s IH]; intros acc Hs; simpl; [done|].
  apply Forall_cons in Hs as [Hc Hs].
  destruct (to_ascii_decimal_value c Hc) as (d & Hv & Hd & ->).
  rewrite ascii_digit_add by done. rewrite IH by done. rewrite Hv. simpl.
  by replace (0x30 + d - 0x30) with d by lia.
Qed.

(** [int] of a string of decimal digits is the number they write. *)
Lemma int_str_number (d : str) : numeral d -> int_str d = Ok (decimal_number d).
Proof.
  intros [Hne Hs]. destruct d as [|c s]; [done|].
  pose proof (int_digits_number (c :: s) 0 Hs) as Hv.
  unfold int_str. simpl map in *.
  apply Forall_cons in Hs as [Hc Hs].
  destruct (to_ascii_decimal c Hc) as (d & Hd & Hasc). rewrite Hasc in *.
  pose proof (ascii_digit_add d Hd) as Hdig.
  cbn [skip_blanks]. rewrite (ascii_digit_not_space _ Hdig).
  unfold int_sign.
  replace (0x30 + d =? 0x2B) with false by (symmetry; apply N.eqb_neq; lia).
  replace (0x30 + d =? 0x2D) with false by (symmetry; apply N.eqb_neq; lia).
  rewrite Hdig, Hv. cbn [skip_blanks]. unfold decimal_number. f_equal.
  apply Z.mul_1_l.
Qed.

Lemma decimal_number_nonneg (d : str) : (0 <= decimal_number d)%Z.
Proof.
  unfold decimal_number.
  assert (forall acc, (0 <= acc)%Z ->
            (0 <= foldl (fun acc c => 10 * acc + Z.of_N (default 0%N (decimal_value c))) acc d)%Z)
    as H; [|by apply H].
  induction d as [|c d IH]; intros acc Hacc; simpl; [done|].
  apply IH. lia.
Qed.

(** ** The form of a block that matches *)

Lemma sem_Cat_inv r1 r2 s g s' g' :
  sem (Cat r1 r2) s g s' g' ->
  exists s1 g1, sem r1 s g s1 g1 /\ sem r2 s1 g1 s' g'.
Proof. intros H. inversion H; subst. by eexists _, _. Qed.

Lemma sem_Maybe_inv r s g s' g' :
  sem (Maybe r) s g s' g' -> sem r s g s' g' \/ (s' = s /\ g' = g).
Proof. intros H. inversion H; subst; auto. Qed.

Lemma sem_Group_inv i r s g s' g' :
  sem (Group i r) s g s' g' ->
  exists g1, sem r s g s' g1 /\ g' = (i, take (length s - length s') s) :: g1.
Proof. intros H. inversion H; subst. by eexists. Qed.

Lemma sem_Plus_inv (p : char -> bool) s g s' g' :
  sem (Plus p) s g s' g' ->
  exists w, s = w ++ s' /\ w <> [] /\ Forall (fun c => p c = true) w /\ g' = g.
Proof. intros H. inversion H; subst. by eexists. Qed.

Lemma sem_Star_inv (p : char -> bool) s g s' g' :
  sem (Star p) s g s' g' ->
  exists w, s = w ++ s' /\ Forall (fun c => p c = true) w /\ g' = g.
Proof. intros H. inversion H; subst. by eexists. Qed.

Lemma sem_Word (w : str) : forall s g s' g',
  sem (Word w) s g s' g' -> s = w ++ s' /\ g' = g.
Proof.
  induction w as [|c w IH]; intros s g s' g' H.
  - by inversion H.
  - change (Word (c :: w)) with (Cat (Lit c) (Word w)) in H.
    apply sem_Cat_inv in H as (s1 & g1 & H1 & H2).
    apply IH in H2 as [-> ->]. by inversion H1; subst.
Qed.

Lemma nonspace_wordlike (t : str) :
  t <> [] -> Forall (fun c => nonspace c = true) t -> wordlike t.
Proof.
  intros Hne Ht. split; [done|]. eapply Forall_impl; [exact Ht|].
  intros c. unfold nonspace, non. by destruct (is_space c).
Qed.

Lemma sem_CLASS_OPT s g s' g' :
  sem CLASS_OPT s g s' g' -> exists w, s = w ++ s' /\ class_form w /\ g' = g.
Proof.
  unfold CLASS_OPT. intros H.
  apply sem_Cat_inv in H as (s1 & g1 & H1 & H). apply sem_Word in H1 as [-> ->].
  apply sem_Cat_inv in H as (s2 & g2 & H1 & H).
  apply sem_Plus_inv in H1 as (sp1 & -> & Hne1 & Hsp1 & ->).
  apply sem_Cat_inv in H as (s3 & g3 & H1 & H).
  apply sem_Plus_inv in H1 as (t1 & -> & Hnt1 & Ht1 & ->).
  apply sem_Maybe_inv in H as [H|[-> ->]].
  - apply sem_Cat_inv in H as (s4 & g4 & H1 & H).
    apply sem_Plus_inv in H1 as (sp2 & -> & Hne2 & Hsp2 & ->).
    apply sem_Plus_inv in H as (t2 & -> & Hnt2 & Ht2 & ->).
    exists (U "Class" ++ sp1 ++ t1 ++ sp2 ++ t2). split; [by rewrite <-!app_assoc|].
    split; [|done]. exists sp1, t1. split; [done|]. split; [by apply nonspace_wordlike|].
    right. exists sp2, t2. split; [done|]. split; [by apply nonspace_wordlike|done].
  - exists (U "Class" ++ sp1 ++ t1). split; [by rewrite <-!app_assoc|].
    split; [|done]. exists sp1, t1. split; [done|]. split; [by apply nonspace_wordlike|].
    by left.
Qed.

Lemma sem_ROW_SEATS_form s g s' g' :
  sem ROW_SEATS s g s' g' ->
  exists sp w2 ws w3,
    s = sp ++ w2 ++ U "列" ++ ws ++ w3 ++ s' /\
    g' = (3%nat, w3) :: (2%nat, w2) :: g /\
    blanks sp /\ numeral w2 /\ Forall (fun c => is_space c = true) ws /\
    w3 <> [] /\ Forall (fun c => seat_char c = true) w3.
Proof.
  unfold ROW_SEATS. intros H.
  apply sem_Cat_inv in H as (s1 & g1 & H1 & H).
  apply sem_Plus_inv in H1 as (sp & -> & Hne & Hsp & ->).
  apply sem_Cat_inv in H as (s2 & g2 & H1 & H).
  apply sem_Group_Plus in H1 as (w2 & -> & Hne2 & Hw2 & ->).
  apply sem_Cat_inv in H as (s3 & g3 & H1 & H). apply sem_Word in H1 as [-> ->].
  apply sem_Cat_inv in H as (s4 & g4 & H1 & H).
  apply sem_Star_inv in H1 as (ws & -> & Hws & ->).
  apply sem_Group_Plus in H as (w3 & -> & Hne3 & Hw3 & ->).
  exists sp, w2, ws, w3. by repeat split.
Qed.

Lemma block_match_parts (block : str) m :
  block_match block = Some m ->
  exists w1 sp w2 ws w3,
    block = w1 ++ sp ++ w2 ++ U "列" ++ ws ++ w3 ++ m_rest m /\
    group m 1 = Some w1 /\ group m 2 = Some w2 /\ group m 3 = Some w3 /\
    class_form w1 /\ blanks sp /\ numeral w2 /\
    Forall (fun c => is_space c = true) ws /\
    w3 <> [] /\ Forall (fun c => seat_char c = true) w3.
Proof.
  rewrite block_match_PATTERN_1. unfold rmatch, match_at.
  destruct (mk PATTERN_1 block [] _) as [[s' g']|] eqn:E; [|done].
  intros [= <-]. cbn [m_rest].
  apply mk_sound in E as (s1 & g1 & Hsem & [= <- <-]).
  unfold PATTERN_1 in Hsem.
  apply sem_Cat_inv in Hsem as (s2 & g2 & H1 & H).
  apply sem_Group_inv in H1 as (g3 & H1 & ->).
  apply sem_CLASS_OPT in H1 as (w1 & -> & Hw1 & ->).
  apply sem_ROW_SEATS_form in H as (sp & w2 & ws & w3 & -> & -> & Hsp & Hw2 & Hws & Hne3 & Hw3).
  rewrite take_app_rest.
  exists w1, sp, w2, ws, w3. by split_and!.
Qed.

(** A block that matches is a class name, white space, a row number,
    [列], optional white space, a seat list and a rest; the groups of the
    match are the class name, the row number and the seat list. *)
Theorem block_match_form (block : str) m :
  block_match block = Some m ->
  exists w1 sp w2 ws w3,
    block = w1 ++ sp ++ w2 ++ U "列" ++ ws ++ w3 ++ m_rest m /\
    group m 1 = Some w1 /\ group m 2 = Some w2 /\ group m 3 = Some w3 /\
    class_form w1 /\ blanks sp /\ numeral w2 /\
    Forall (fun c => is_space c = true) ws /\
    w3 <> [] /\ Forall (fun c => seat_char c = true) w3.
Proof. apply block_match_parts. Qed.

Lemma block_match_form_witness :
  exists m w1 sp w2 ws w3,
    block_match (U "Class SS End-1 2列　8、9") = Some m /\
    U "Class SS End-1 2列　8、9" = w1 ++ sp ++ w2 ++ U "列" ++ ws ++ w3 ++ m_rest m /\
    group m 1 = Some w1 /\ class_form w1.
Proof.
  assert (exists m, block_match (U "Class SS End-1 2列　8、9") = Some m) as [m E]
    by (vm_compute; eexists; reflexivity).
  destruct (block_match_form _ _ E)
    as (w1 & sp & w2 & ws & w3 & Hb & Hg1 & _ & _ & Hw1 & _).
  exists m, w1, sp, w2, ws, w3. exact (conj E (conj Hb (conj Hg1 Hw1))).
Defined.

Lemma rstrip_word (t : str) : wordlike t -> rstrip t = t.
Proof.
  intros [Hne Ht]. induction Ht as [|c t Hc Ht IH]; [done|].
  rewrite rstrip_cons_nonspace by done.
  destruct t as [|c' t']; [done|]. by rewrite IH.
Qed.

Lemma rstrip_app_word (x t : str) : wordlike t -> rstrip (x ++ t) = x ++ t.
Proof.
  intros Ht. induction x as [|c x IH]; simpl; [by apply rstrip_word|].
  rewrite rstrip_cons, IH. destruct Ht as [Hne _].
  destruct (x ++ t) eqn:E; [|done].
  apply app_eq_nil in E as [_ ?]. done.
Qed.

Lemma strip_class_form (w : str) : class_form w -> strip w = w.
Proof.
  intros (sp1 & t1 & Hsp1 & Ht1 & [->|(sp2 & t2 & Hsp2 & Ht2 & ->)]); unfold strip, lstrip.
  - change (skip is_space (U "Class" ++ sp1 ++ t1)) with (U "Class" ++ sp1 ++ t1).
    rewrite app_assoc. by apply rstrip_app_word.
  - change (skip is_space (U "Class" ++ sp1 ++ t1 ++ sp2 ++ t2))
      with (U "Class" ++ sp1 ++ t1 ++ sp2 ++ t2).
    rewrite !app_assoc. by apply rstrip_app_word.
Qed.

Lemma words_blanks (sp s : str) :
  Forall (fun c => is_space c = true) sp -> words (sp ++ s) = words s.
Proof.
  induction 1 as [|c sp Hc _ IH]; [done|]. cbn [app words]. by rewrite Hc.
Qed.

Lemma words_word_blanks (t sp s : str) :
  wordlike t -> blanks sp -> words (t ++ sp ++ s) = t :: words s.
Proof.
  intros Ht [Hne Hsp]. destruct Hsp as [|c sp Hc Hsp]; [done|].
  cbn [app]. rewrite words_app_space by done. by rewrite words_blanks.
Qed.

(** A class name of the form has two or three words, the first of
    which is [Class]. *)
Lemma words_class_form (w : str) :
  class_form w ->
  exists t1, wordlike t1 /\
    (words w = [U "Class"; t1] \/
     exists t2, wordlike t2 /\ words w = [U "Class"; t1; t2]).
Proof.
  assert (wordlike (U "Class")) as HC.
  { split; [done|]. by repeat constructor. }
  intros (sp1 & t1 & Hsp1 & Ht1 & [->|(sp2 & t2 & Hsp2 & Ht2 & ->)]); exists t1; (split; [done|]).
  - left. rewrite words_word_blanks by done. by rewrite words_word.
  - right. exists t2. split; [done|].
    rewrite words_word_blanks by done. rewrite words_word_blanks by done.
    by rewrite words_word.
Qed.

(** ** What every request of the parser looks like *)

Lemma for_each_inv {A S} (P : S -> Prop) (body : A -> S -> res S) (xs : list A) :
  (forall x s s', x ∈ xs -> P s -> body x s = Ok s' -> P s') ->
  forall s s', P s -> for_each xs body s = Ok s' -> P s'.
Proof.
  induction xs as [|x xs IH]; intros Hb s s' Hs; simpl.
  - by intros [= <-].
  - destruct (body x s) as [s1|e] eqn:E; simpl; [|done].
    apply IH; [|by eapply (Hb x); [left|..]].
    intros y t t' Hy. apply Hb. by right.
Qed.

Lemma block_requests_inv (P : request -> Prop) block m results results' :
  block_match block = Some m ->
  (forall w1 w2 w3 sp,
     group m 1 = Some w1 -> group m 2 = Some w2 -> group m 3 = Some w3 ->
     sp ∈ split SEPARATORS (strip w3) ->
     isdigit (strip sp) = true ->
     P (w1, decimal_number w2, decimal_number (strip sp))) ->
  Forall P results ->
  block_requests m results = Ok results' ->
  Forall P results'.
Proof.
  intros Hm HP Hres.
  apply block_match_parts in Hm
    as (w1 & sp0 & w2 & ws & w3 & _ & Hg1 & Hg2 & Hg3 & Hw1 & _ & Hw2 & _ & _ & Hw3).
  unfold block_requests. rewrite Hg1, Hg2, Hg3. simpl.
  rewrite (int_str_number w2 Hw2), (strip_class_form w1 Hw1). simpl.
  apply for_each_inv; [|done].
  intros sp s s' Hsp Hs. unfold seat_body.
  destruct (isdigit (strip sp)) eqn:E; [|by intros [= <-]].
  rewrite int_str_number.
  - simpl. intros [= <-]. apply Forall_app. split; [done|].
    constructor; [|constructor]. by eapply HP.
  - split; [by apply isdigit_nonempty|]. apply Forall_strip.
    by apply (proj1 (Forall_forall _ _) (seat_parts_decimal w3 Hw3)).
Qed.

Lemma parse_seat_text_inv (P : request -> Prop) text l :
  (forall b m w1 w2 w3 sp,
     b ∈ split BLOCK_START (replace 0x3000 0x20 (replace 0x3000 0x20 text)) ->
     block_match (strip b) = Some m ->
     group m 1 = Some w1 -> group m 2 = Some w2 -> group m 3 = Some w3 ->
     sp ∈ split SEPARATORS (strip w3) ->
     isdigit (strip sp) = true ->
     P (w1, decimal_number w2, decimal_number (strip sp))) ->
  parse_seat_text text = Ok l -> Forall P l.
Proof.
  intros HP. unfold parse_seat_text, parse_with.
  destruct (for_each _ _ _) as [results|e] eqn:E; simpl; [|done].
  intros [= <-].
  assert (Forall P results) as Hres.
  { revert E. apply for_each_inv; [|constructor].
    intros block s s' Hb Hs. unfold block_body.
    destruct (strip block) as [|c b] eqn:Eb; [by intros [= <-]|].
    destruct (block_match (c :: b)) as [m|] eqn:Em; [|by intros [= <-]].
    eapply block_requests_inv; [exact Em| |done]. intros.
    eapply HP; [exact Hb|by rewrite Eb|done..]. }
  apply Forall_forall. intros rq Hrq. unfold list_set in Hrq.
  apply (proj1 (elem_of_remove_dups _ _)) in Hrq.
  by apply (proj1 (Forall_forall _ _) Hres).
Qed.

(** Every request of the parser has a class name of the form
    [Class], white space, a word, and possibly white space and one more
    word: it has two or three words, the first of which is [Class], and
    no white space at either end. *)
Theorem parse_class_names text l (rq : request) :
  parse_seat_text text = Ok l -> rq ∈ l ->
  class_form rq.1.1 /\ strip rq.1.1 = rq.1.1.
Proof.
  intros Hp Hrq.
  assert (class_form rq.1.1) as H; [|split; [done|by apply strip_class_form]].
  revert rq Hrq. apply Forall_forall. revert Hp. apply parse_seat_text_inv.
  intros b m w1 w2 w3 sp _ Hm Hg1 _ _ _ _. simpl.
  apply block_match_parts in Hm as (w1' & ? & ? & ? & ? & _ & Hg1' & _ & _ & Hw1 & _).
  congruence.
Qed.

Lemma parse_class_names_witness :
  parse_seat_text (U "Class SS End-1 2列8、9")
    = Ok [(U "Class SS End-1", 2%Z, 8%Z); (U "Class SS End-1", 2%Z, 9%Z)] /\
  (U "Class SS End-1", 2%Z, 9%Z)
    ∈ [(U "Class SS End-1", 2%Z, 8%Z); (U "Class SS End-1", 2%Z, 9%Z)] /\
  class_form (U "Class SS End-1").
Proof.
  assert (parse_seat_text (U "Class SS End-1 2列8、9")
          = Ok [(U "Class SS End-1", 2%Z, 8%Z); (U "Class SS End-1", 2%Z, 9%Z)]) as Hp
    by (by vm_compute).
  assert ((U "Class SS End-1", 2%Z, 9%Z)
            ∈ [(U "Class SS End-1", 2%Z, 8%Z); (U "Class SS End-1", 2%Z, 9%Z)]) as Hin
    by (apply list_elem_of_further, list_elem_of_here).
  split; [exact Hp|]. split; [exact Hin|].
  exact (proj1 (parse_class_names _ _ _ Hp Hin)).
Defined.

(** Row and seat numbers of the parser are never negative. *)
Theorem parse_numbers_nonneg text l (rq : request) :
  parse_seat_text text = Ok l -> rq ∈ l -> (0 <= rq.1.2)%Z /\ (0 <= rq.2)%Z.
Proof.
  intros Hp. revert rq. apply Forall_forall. revert Hp. apply parse_seat_text_inv.
  intros. simpl. split; apply decimal_number_nonneg.
Qed.

Lemma parse_numbers_nonneg_witness :
  parse_seat_text (U "Class SS End-1 2列8、9")
    = Ok [(U "Class SS End-1", 2%Z, 8%Z); (U "Class SS End-1", 2%Z, 9%Z)] /\
  (0 <= 2)%Z /\ (0 <= 9)%Z.
Proof.
  assert (parse_seat_text (U "Class SS End-1 2列8、9")
          = Ok [(U "Class SS End-1", 2%Z, 8%Z); (U "Class SS End-1", 2%Z, 9%Z)]) as Hp
    by (by vm_compute).
  assert ((U "Class SS End-1", 2%Z, 9%Z)
            ∈ [(U "Class SS End-1", 2%Z, 8%Z); (U "Class SS End-1", 2%Z, 9%Z)]) as Hin
    by (apply list_elem_of_further, list_elem_of_here).
  split; [exact Hp|].
  exact (parse_numbers_nonneg _ _ _ Hp Hin).
Defined.

(** ** Texts from which nothing is parsed *)

Lemma elem_of_strip c (s : str) : c ∈ strip s -> c ∈ s.
Proof.
  intros Hc.
  assert (Forall (fun c => c ∈ s) (strip s)) as H
    by (apply Forall_strip; by apply Forall_forall).
  by apply (proj1 (Forall_forall _ _) H).
Qed.

Lemma elem_of_replace c old new (s : str) :
  c ∈ replace old new s -> c ∈ s \/ c = new.
Proof.
  unfold replace. intros H. apply list_elem_of_fmap in H as (d & -> & Hd).
  destruct (d =? old); auto.
Qed.

Lemma mem_elem_of c (s : str) : mem c s = false -> c ∉ s.
Proof.
  unfold mem. intros H Hc. apply list_elem_of_In in Hc.
  assert (existsb (N.eqb c) s = true) as H'
    by (apply existsb_exists; exists c; split; [done|apply N.eqb_refl]).
  congruence.
Qed.

Lemma elem_of_concat {A} (x : A) (l : list A) (ls : list (list A)) :
  x ∈ l -> l ∈ ls -> x ∈ concat ls.
Proof.
  intros Hx Hl. induction Hl as [l ls|l l' ls _ IH]; simpl; apply elem_of_app; auto.
Qed.

Lemma block_match_row_mark (block : str) m :
  block_match block = Some m -> ROW_MARK ∈ block.
Proof.
  intros Hm. apply block_match_parts in Hm as (w1 & sp & w2 & ws & w3 & -> & _).
  apply elem_of_app. right. apply elem_of_app. right. apply elem_of_app. right.
  apply elem_of_app. left. by left.
Qed.

(** A text in which [列] does not occur gives no request, and the run
    on it halts with the parse error. *)
Theorem parse_without_row_mark (text : str) :
  mem ROW_MARK text = false ->
  parse_seat_text text = Ok [] /\
  forall uploaded date_str,
    run text uploaded date_str start = (Halt, World [Error_unparsed] None).
Proof.
  intros Hno. apply mem_elem_of in Hno.
  assert (parse_seat_text text = Ok []) as Hp; [|split; [done|intros; by apply run_unparsed]].
  destruct (parse_seat_text_ok text) as (l & Hl & _). rewrite Hl. f_equal.
  assert (Forall (fun _ => False) l) as Hf; [|by destruct Hf].
  revert Hl. apply parse_seat_text_inv.
  intros b m w1 w2 w3 sp Hb Hm _ _ _ _ _. apply Hno.
  apply block_match_row_mark, elem_of_strip in Hm.
  assert (ROW_MARK ∈ concat (split BLOCK_START (replace 12288 32 (replace 12288 32 text)))) as Hc
    by (by eapply elem_of_concat).
  rewrite split_blocks_concat in Hc.
  apply elem_of_replace in Hc as [Hc|Hc]; [|done].
  by apply elem_of_replace in Hc as [Hc|Hc].
Qed.

Lemma parse_without_row_mark_witness :
  mem ROW_MARK (U "Class S South 33") = false /\
  parse_seat_text (U "Class S South 33") = Ok [].
Proof.
  assert (mem ROW_MARK (U "Class S South 33") = false) as H by (by vm_compute).
  split; [exact H|]. exact (proj1 (parse_without_row_mark _ H)).
Defined.

(** ** Class names up to white space *)

Lemma normalize_class_words_iff (x y : str) :
  words (normalize_class x) = words x /\
  (normalize_class x = normalize_class y <-> words x = words y).
Proof.
  assert (forall z, words (normalize_class z) = words z) as Hw.
  { intros z. rewrite normalize_class_words. apply words_join, words_wordlike. }
  split; [apply Hw|]. split.
  - intros H. by rewrite <-(Hw x), <-(Hw y), H.
  - intros H. by rewrite !normalize_class_words, H.
Qed.

(** Normalising keeps the words, and two class names have the same
    normal form exactly when they have the same words. *)
Theorem normalize_class_same_words (x y : str) :
  words (normalize_class x) = words x /\
  (normalize_class x = normalize_class y <-> words x = words y).
Proof. apply normalize_class_words_iff. Qed.

(** The normal form is empty exactly for a string of white space only
    (the empty string included). *)
Theorem normalize_class_blank (x : str) :
  normalize_class x = [] <-> Forall (fun c => is_space c = true) x.
Proof.
  rewrite normalize_class_words. split.
  - intros H. apply words_nil. apply join_nil; [apply words_wordlike|done].
  - intros H. rewrite <-(app_nil_r x), words_blanks by done. done.
Qed.

(** ** Looking up the index *)






Lemma index_lookup_sound (ws_class ws_row ws_seat : worksheet) m k (q : coord) :
  build_index ws_class ws_row ws_seat = Ok m ->
  m !! k = Some q ->
  q ∈ positions ws_class /\
  key_at ws_class ws_row ws_seat q = Some k /\
  normalize_class k.1.1 = k.1.1.
Proof.
  rewrite build_index_positions. intros [= <-]. rewrite index_of_last. intros Hq.
  apply last_Some_elem_of, list_elem_of_filter in Hq as [Hk Hin].
  split; [done|]. split; [done|].
  unfold key_at in Hk. destruct (_ || _); [done|].
  destruct (int_value _); [|done]. destruct (int_value _); [|done].
  injection Hk as <-. simpl. apply normalize_class_idempotent.
Qed.

(** Nothing else is in the index: every entry is a position of the used
    range that stands for its key, and the class name of every key is
    in normal form. *)
Theorem index_entries_sound (ws_class ws_row ws_seat : worksheet) m k (q : coord) :
  build_index ws_class ws_row ws_seat = Ok m ->
  m !! k = Some q ->
  q ∈ positions ws_class /\
  key_at ws_class ws_row ws_seat q = Some k /\
  normalize_class k.1.1 = k.1.1.
Proof. apply index_lookup_sound. Qed.

Lemma index_entries_sound_witness :
  exists m,
    build_index class_layer row_layer seat_layer = Ok m /\
    m !! south_1_34 = Some (1%nat, 2%nat) /\
    key_at class_layer row_layer seat_layer (1%nat, 2%nat) = Some south_1_34.
Proof.
  exists (index_of class_layer row_layer seat_layer (positions class_layer)).
  pose proof (build_index_positions class_layer row_layer seat_layer) as Hb.
  assert (index_of class_layer row_layer seat_layer (positions class_layer) !! south_1_34
          = Some (1%nat, 2%nat)) as Hq by (vm_compute; reflexivity).
  exact (conj Hb (conj Hq (proj1 (proj2 (index_entries_sound _ _ _ _ _ _ Hb Hq))))).
Defined.

(** ** What the loop paints *)

Lemma cell_fill_set_fill ws r c f r' c' :
  cell_fill (ws_cell (set_fill ws r c f) r' c') =
    if decide ((r, c) = (r', c')) then f else cell_fill (ws_cell ws r' c').
Proof.
  unfold ws_cell at 1, set_fill. simpl. case_decide as E.
  - injection E as <- <-. by rewrite lookup_insert_eq.
  - by rewrite lookup_insert_ne.
Qed.

Lemma foldl_reconcile_hits (coord_map : gmap key coord) (seats : list request) :
  forall st,
    (forall h, h ∈ matched st ->
       coord_map !! request_key (hit_request h) = Some (hit_cell h) /\
       cell_fill (ws_cell (seat_sheet st) (hit_cell h).1 (hit_cell h).2) = BLUE_FILL) ->
    forall h, h ∈ matched (foldl (reconcile_body coord_map) st seats) ->
      coord_map !! request_key (hit_request h) = Some (hit_cell h) /\
      cell_fill (ws_cell (seat_sheet (foldl (reconcile_body coord_map) st seats))
                   (hit_cell h).1 (hit_cell h).2) = BLUE_FILL.
Proof.
  induction seats as [|rq seats IH]; intros st Hst; simpl; [done|].
  apply IH. intros h Hh.
  destruct (coord_map !! request_key rq) as [[r c]|] eqn:E.
  - rewrite (reconcile_body_hit _ _ _ r c E) in *. simpl in *.
    rewrite cell_fill_set_fill.
    apply elem_of_app in Hh as [Hh|Hh].
    + destruct (Hst h Hh) as [Hk Hf]. split; [done|]. by case_decide.
    + apply list_elem_of_singleton in Hh as ->. simpl.
      split; [by destruct rq as [[? ?] ?]|]. by rewrite decide_True.
  - rewrite (reconcile_body_miss _ _ _ E) in *. simpl in *. by apply Hst.
Qed.

Lemma matched_cells_are_blue_aux (coord_map : gmap key coord)
    (seats : list request) (ws_seat : worksheet) (h : hit) :
  h ∈ matched (reconcile coord_map seats ws_seat) ->
  coord_map !! request_key (hit_request h) = Some (hit_cell h) /\
  cell_fill (ws_cell (seat_sheet (reconcile coord_map seats ws_seat))
               (hit_cell h).1 (hit_cell h).2) = BLUE_FILL.
Proof.
  apply foldl_reconcile_hits. simpl. intros h' Hh'. by apply elem_of_nil in Hh'.
Qed.

(** Every row of the table of matched seats names the cell the index
    gives for its request, and after the loop that cell has the blue
    fill. *)
Theorem matched_cells_are_blue (coord_map : gmap key coord)
    (seats : list request) (ws_seat : worksheet) (h : hit) :
  h ∈ matched (reconcile coord_map seats ws_seat) ->
  coord_map !! request_key (hit_request h) = Some (hit_cell h) /\
  cell_fill (ws_cell (seat_sheet (reconcile coord_map seats ws_seat))
               (hit_cell h).1 (hit_cell h).2) = BLUE_FILL.
Proof. apply matched_cells_are_blue_aux. Qed.

Lemma matched_cells_are_blue_witness :
  Hit (U "Class S South") 1 33 (2%nat, 3%nat)
    ∈ matched (reconcile one_seat_index [south_1_33; south_1_5] blank_sheet) /\
  cell_fill (ws_cell (seat_sheet (reconcile one_seat_index [south_1_33; south_1_5] blank_sheet))
               2 3) = BLUE_FILL.
Proof.
  assert (Hit (U "Class S South") 1 33 (2%nat, 3%nat)
            ∈ matched (reconcile one_seat_index [south_1_33; south_1_5] blank_sheet)) as H
    by (vm_compute; apply list_elem_of_here).
  split; [exact H|]. exact (proj2 (matched_cells_are_blue _ _ _ _ H)).
Defined.

(** The two tables list the requests in the order in which the loop
    takes them: the matched table the requests whose key is in the
    index, the unmatched table the others. *)
Theorem reconcile_tables_in_order (coord_map : gmap key coord)
    (seats : list request) (ws_seat : worksheet) :
  hit_request <$> matched (reconcile coord_map seats ws_seat) = hits coord_map seats /\
  unmatched (reconcile coord_map seats ws_seat) = misses coord_map seats.
Proof. apply reconcile_lists. Qed.

(** With an index without entries nothing is painted: every request is
    unmatched and the sheet is unchanged. *)
Theorem reconcile_empty_index (seats : list request) (ws_seat : worksheet) :
  reconcile ∅ seats ws_seat = Recon ws_seat [] seats.
Proof.
  unfold reconcile.
  assert (forall st, foldl (reconcile_body ∅) st seats
                     = Recon (seat_sheet st) (matched st) (unmatched st ++ seats)) as H.
  { induction seats as [|rq seats IH]; intros st; simpl.
    - rewrite app_nil_r. by destruct st.
    - rewrite IH, reconcile_body_miss by apply lookup_empty. simpl.
      by rewrite <-app_assoc. }
  by rewrite H.
Qed.

Lemma foldl_reconcile_dims (coord_map : gmap key coord) (seats : list request) :
  forall st,
    max_row (seat_sheet (foldl (reconcile_body coord_map) st seats))
      = max_row (seat_sheet st) /\
    max_column (seat_sheet (foldl (reconcile_body coord_map) st seats))
      = max_column (seat_sheet st).
Proof.
  induction seats as [|rq seats IH]; intros st; simpl; [done|].
  destruct (IH (reconcile_body coord_map st rq)) as [-> ->].
  destruct (coord_map !! request_key rq) as [[r0 c0]|] eqn:E.
  - by rewrite (reconcile_body_hit _ _ _ r0 c0 E).
  - by rewrite (reconcile_body_miss _ _ _ E).
Qed.

(** The loop never changes the used range or a value of the seat sheet;
    the fill of a cell after the loop is blue when its position is in
    the table of matched seats and as before otherwise. *)
Theorem reconcile_fills (coord_map : gmap key coord)
    (seats : list request) (ws_seat : worksheet) (r c : nat) :
  let rc := reconcile coord_map seats ws_seat in
  max_row (seat_sheet rc) = max_row ws_seat /\
  max_column (seat_sheet rc) = max_column ws_seat /\
  cell_value (ws_cell (seat_sheet rc) r c) = cell_value (ws_cell ws_seat r c) /\
  cell_fill (ws_cell (seat_sheet rc) r c) =
    if decide ((r, c) ∈ hit_cell <$> matched rc) then BLUE_FILL
    else cell_fill (ws_cell ws_seat r c).
Proof.
  intros rc.
  destruct (foldl_reconcile_frame coord_map seats (Recon ws_seat [] []) r c)
    as (Hf & Hv & _). fold (reconcile coord_map seats ws_seat) in Hf, Hv. fold rc in Hf, Hv.
  destruct (foldl_reconcile_dims coord_map seats (Recon ws_seat [] [])) as [Hr Hc].
  split; [exact Hr|]. split; [exact Hc|]. split; [exact Hv|].
  case_decide as Hin.
  - apply list_elem_of_fmap in Hin as (h & Hh & Hin).
    destruct (matched_cells_are_blue_aux coord_map seats ws_seat h Hin) as [_ Hb].
    by rewrite <-Hh in Hb.
  - by rewrite Hf.
Qed.
